(** * Asynchronous square: [std::async] launch and [std::future::get] retrieval

    A verification development for [cpp_tutorial_102e5f.cpp].  The program has
    two execution contexts, the caller ([main]) and one worker started by
    [std::async(std::launch::async, calculate_square_async, 5)], which meet at
    [future_result.get()].

    - Machine integers ([int]) are [Z] with the 32-bit two's-complement
      wrap-around written out ([wrap]).
    - Each thread's code is a term of the effect tree [prog]: the C++ function
      body written with console insertions, sleeps, [async], [get], [throw]
      and [return] as the only reified operations.
    - The two threads run under an interleaving semantics: [exec t c] lets
      thread [t] take one atomic action in configuration [c], and an
      execution is a schedule, a list of thread choices, played by [run].
    - The shared state of the future is the field [fut] of a configuration;
      the field [log] records every action in the order it happened. *)

From Stdlib Require Import ZArith List String Ascii Bool Lia PeanoNat.
From Stdlib Require Import DecimalString.
Import ListNotations.
Open Scope Z_scope.
Open Scope string_scope.
Open Scope list_scope.

(** ** Machine integers *)

(** [int] on the platforms the tutorial targets: 32 bits, two's complement. *)
Definition int : Type := Z.

Definition int_width : Z := 32.
Definition int_modulus : Z := 2 ^ int_width.
Definition int_min : Z := - 2 ^ (int_width - 1).
Definition int_max : Z := 2 ^ (int_width - 1) - 1.

Definition in_int_range (z : Z) : Prop := int_min <= z <= int_max.

(** The representative of [z] modulo [2^32] that lies in the range of [int]. *)
Definition wrap (z : Z) : int := (z - int_min) mod int_modulus + int_min.

(** [a * b] on [int] operands.  The language standard leaves a signed
    product that does not fit undefined; the model takes what the usual
    targets compute, the low 32 bits read as two's complement. *)
Definition int_mul (a b : int) : int := wrap (a * b).

(** [operator<<(int)] on an output stream: decimal digits, with a sign when
    the value is negative. *)
Definition show (z : int) : string := NilZero.string_of_int (Z.to_int z).

Arguments show : simpl never.
Arguments int_mul : simpl never.
Arguments wrap : simpl never.

(** ** Exceptions, streams, threads *)

(** What a [throw] can raise, as far as [catch (const std::exception&)] can
    tell: an object derived from [std::exception], carrying its [what()]
    text, or anything else. *)
Inductive exn : Type :=
| std_exception (what : string)
| other_exception.

(** How a call ends: by [return v] or by an exception leaving it. *)
Inductive outcome : Type :=
| Val (v : int)
| Exn (e : exn).

Inductive stream : Type := Cout | Cerr.

Inductive thread : Type := Main | Worker.

(** ** Effect trees

    [prog] is the body of a C++ function with its effects reified.  Every
    statement yields an [int]; statements of type [void] yield [0], which
    sequencing ignores. *)
Inductive prog : Type :=
| Ret (v : int)                                  (* return v; end of a block *)
| Throw (e : exn)                                (* throw e *)
| Put (s : stream) (text : string) (k : prog)    (* one [s << text] *)
| SleepFor (secs : Z) (k : prog)                 (* std::this_thread::sleep_for *)
| Async (task : prog) (k : prog)                 (* future_result = std::async(std::launch::async, ...) *)
| Get (k : int -> prog) (h : exn -> prog).       (* future_result.get(): value, or rethrown exception *)

Fixpoint bind (p : prog) (f : int -> prog) : prog :=
  match p with
  | Ret v => f v
  | Throw e => Throw e
  | Put s text k => Put s text (bind k f)
  | SleepFor secs k => SleepFor secs (bind k f)
  | Async task k => Async task (bind k f)
  | Get k h => Get (fun v => bind (k v) f) (fun e => bind (h e) f)
  end.

Notation "x <- p ;; q" := (bind p (fun x => q))
  (at level 61, p at next level, right associativity).
Notation "p ;; q" := (bind p (fun _ => q))
  (at level 61, right associativity).

(** [try { body } catch (const std::exception& e) { handler (e.what()) }]:
    only exceptions derived from [std::exception] are caught. *)
Fixpoint try_catch (body : prog) (handler : string -> prog) : prog :=
  match body with
  | Ret v => Ret v
  | Throw (std_exception what) => handler what
  | Throw other_exception => Throw other_exception
  | Put s text k => Put s text (try_catch k handler)
  | SleepFor secs k => SleepFor secs (try_catch k handler)
  | Async task k => Async task (try_catch k handler)
  | Get k h => Get (fun v => try_catch (k v) handler)
                   (fun e => try_catch (h e) handler)
  end.

Definition newline : string := String (ascii_of_nat 10) EmptyString.

(** [std::endl]: the newline character (and a flush). *)
Definition endl : string := newline.

(** [s << a << b << ... ;]: one insertion per operand, left to right. *)
Fixpoint insert (s : stream) (chunks : list string) : prog :=
  match chunks with
  | [] => Ret 0
  | text :: rest => Put s text (insert s rest)
  end.

Definition cout : list string -> prog := insert Cout.
Definition cerr : list string -> prog := insert Cerr.

Definition sleep_for (secs : Z) : prog := SleepFor secs (Ret 0).
Definition async (task : prog) : prog := Async task (Ret 0).
Definition get : prog := Get Ret Throw.

(** ** The program *)

(** [int calculate_square_async(int number)] *)
Definition calculate_square_async (number : int) : prog :=
  cout ["Worker thread: Starting calculation for "; show number; "..."; endl] ;;
  sleep_for 2 ;;
  let result := int_mul number number in
  cout ["Worker thread: Calculation for "; show number;
        " finished. Result: "; show result; endl] ;;
  Ret result.

(** The body of [main], with the two things it hands to [std::async] taken as
    parameters: the function to run and its argument. *)
Definition main_with (task : int -> prog) (arg : int) : prog :=
  cout ["Main thread: Starting the program."; endl] ;;
  async (task arg) ;;
  cout ["Main thread: Doing other work while the calculation is in progress...";
        endl] ;;
  sleep_for 1 ;;
  cout ["Main thread: Finished doing other work."; endl] ;;
  cout ["Main thread: Waiting for the asynchronous calculation to finish and getting the result.";
        endl] ;;
  try_catch
    (result <- get ;;
     cout ["Main thread: Asynchronous calculation result: "; show result; endl])
    (fun what =>
     cerr ["Main thread: An exception occurred during asynchronous execution: ";
           what; endl]) ;;
  cout ["Main thread: Program finished."; endl] ;;
  Ret 0.

(** [int main()] as written: the worker is [calculate_square_async], the
    argument is [5]. *)
Definition main : prog := main_with calculate_square_async 5.

(** A worker with a fault injected: the generalized worker of the
    specification, whose simulated work fails with a [ComputationError], an
    exception derived from [std::exception].  The source has no such
    worker; it serves as an input to [main_with]. *)
Definition computation_error : exn :=
  std_exception "ComputationError: simulated work failed".

Definition computation_error_outcome : outcome := Exn computation_error.

Definition calculate_square_faulty (number : int) : prog :=
  cout ["Worker thread: Starting calculation for "; show number; "..."; endl] ;;
  sleep_for 2 ;;
  Throw computation_error.

(** ** Interleaving semantics *)

(** The shared state behind [future_result]. *)
Inductive future_state : Type :=
| NoFuture                 (* before the launch *)
| Pending                  (* launched, the worker has not finished *)
| Ready (o : outcome)      (* the worker stored its outcome *)
| Consumed.                (* [get] took the outcome *)

(** What the log records, one entry per atomic action. *)
Inductive event : Type :=
| Write (t : thread) (s : stream) (text : string)
| Slept (t : thread) (secs : Z)
| Launched                 (* main: std::async returned the handle *)
| Completed (o : outcome)  (* worker: outcome stored, future made ready *)
| Retrieved (o : outcome)  (* main: get() returned or rethrew *)
| Exited (code : int)      (* main returned *)
| Terminated.              (* an exception left main: std::terminate *)

Record config : Type := Config {
  main_thread : option prog;     (* what main has left to run; None once the process ended *)
  worker_thread : option prog;   (* what the worker has left to run; None when there is no live worker *)
  fut : future_state;
  log : list event
}.

Definition init (p : prog) : config :=
  {| main_thread := Some p; worker_thread := None; fut := NoFuture; log := [] |}.

(** One atomic action of main.  [get] has no action while the future is
    pending: the caller is blocked.  Returning from main destroys
    [future_result], which for a future obtained from [std::async] waits for
    a worker that is still running. *)
Definition exec_main (c : config) : option config :=
  match main_thread c with
  | None => None
  | Some (Ret v) =>
      match fut c with
      | Pending => None
      | _ => Some {| main_thread := None; worker_thread := worker_thread c;
                     fut := fut c; log := log c ++ [Exited v] |}
      end
  | Some (Throw e) =>
      Some {| main_thread := None; worker_thread := None;
              fut := fut c; log := log c ++ [Terminated] |}
  | Some (Put s text k) =>
      Some {| main_thread := Some k; worker_thread := worker_thread c;
              fut := fut c; log := log c ++ [Write Main s text] |}
  | Some (SleepFor secs k) =>
      Some {| main_thread := Some k; worker_thread := worker_thread c;
              fut := fut c; log := log c ++ [Slept Main secs] |}
  | Some (Async task k) =>
      match fut c with
      | NoFuture =>
          Some {| main_thread := Some k; worker_thread := Some task;
                  fut := Pending; log := log c ++ [Launched] |}
      | _ => None
      end
  | Some (Get k h) =>
      match fut c with
      | Ready (Val v) =>
          Some {| main_thread := Some (k v); worker_thread := worker_thread c;
                  fut := Consumed; log := log c ++ [Retrieved (Val v)] |}
      | Ready (Exn e) =>
          Some {| main_thread := Some (h e); worker_thread := worker_thread c;
                  fut := Consumed; log := log c ++ [Retrieved (Exn e)] |}
      | _ => None
      end
  end.

(** One atomic action of the worker.  When the task returns or throws, the
    outcome is stored in the shared state and the thread ends. *)
Definition exec_worker (c : config) : option config :=
  match worker_thread c with
  | None => None
  | Some (Ret v) =>
      Some {| main_thread := main_thread c; worker_thread := None;
              fut := Ready (Val v); log := log c ++ [Completed (Val v)] |}
  | Some (Throw e) =>
      Some {| main_thread := main_thread c; worker_thread := None;
              fut := Ready (Exn e); log := log c ++ [Completed (Exn e)] |}
  | Some (Put s text k) =>
      Some {| main_thread := main_thread c; worker_thread := Some k;
              fut := fut c; log := log c ++ [Write Worker s text] |}
  | Some (SleepFor secs k) =>
      Some {| main_thread := main_thread c; worker_thread := Some k;
              fut := fut c; log := log c ++ [Slept Worker secs] |}
  | Some (Async _ _) => None
  | Some (Get _ _) => None
  end.

Definition exec (t : thread) (c : config) : option config :=
  match t with
  | Main => exec_main c
  | Worker => exec_worker c
  end.

(** An execution is a schedule: which thread acts next, step after step.  A
    schedule that picks a thread with no action is not an execution. *)
Fixpoint run (sched : list thread) (c : config) : option config :=
  match sched with
  | [] => Some c
  | t :: rest =>
      match exec t c with
      | Some c' => run rest c'
      | None => None
      end
  end.

Definition halted (c : config) : Prop := main_thread c = None.

(** Where schedule [sched] takes program [p] (the initial configuration when
    [sched] is not an execution of [p]). *)
Definition run_to (sched : list thread) (p : prog) : config :=
  match run sched (init p) with
  | Some c => c
  | None => init p
  end.

(** ** Reading the log *)

Definition event_thread (e : event) : thread :=
  match e with
  | Write t _ _ => t
  | Slept t _ => t
  | Completed _ => Worker
  | Launched | Retrieved _ | Exited _ | Terminated => Main
  end.

Definition thread_eqb (a b : thread) : bool :=
  match a, b with
  | Main, Main | Worker, Worker => true
  | _, _ => false
  end.

(** The actions of one thread, in order. *)
Definition by_thread (t : thread) (l : list event) : list event :=
  filter (fun e => thread_eqb (event_thread e) t) l.

Definition is_sync (e : event) : bool :=
  match e with
  | Launched | Completed _ | Retrieved _ => true
  | _ => false
  end.

(** The life of the handle: launch, completion, retrieval, in order. *)
Definition sync (l : list event) : list event := filter is_sync l.

Definition stream_eqb (a b : stream) : bool :=
  match a, b with
  | Cout, Cout | Cerr, Cerr => true
  | _, _ => false
  end.

(** The characters that reached stream [s], from both threads, in order. *)
Fixpoint console (s : stream) (l : list event) : string :=
  match l with
  | [] => ""
  | Write _ s' text :: rest =>
      if stream_eqb s' s then (text ++ console s rest)%string
      else console s rest
  | _ :: rest => console s rest
  end.

(** ** Sequential reading of each thread *)

(** A task is a body that owns no future: it prints, sleeps, and ends. *)
Fixpoint is_task (p : prog) : bool :=
  match p with
  | Ret _ | Throw _ => true
  | Put _ _ k | SleepFor _ k => is_task k
  | Async _ _ | Get _ _ => false
  end.

(** How a task ends when run on its own. *)
Fixpoint task_outcome (p : prog) : outcome :=
  match p with
  | Ret v => Val v
  | Throw e => Exn e
  | Put _ _ k | SleepFor _ k => task_outcome k
  | Async _ k => task_outcome k
  | Get k _ => task_outcome (k 0)
  end.

(** The actions of a task run to its end on the worker thread. *)
Fixpoint task_events (p : prog) : list event :=
  match p with
  | Ret v => [Completed (Val v)]
  | Throw e => [Completed (Exn e)]
  | Put s text k => Write Worker s text :: task_events k
  | SleepFor secs k => Slept Worker secs :: task_events k
  | Async _ _ | Get _ _ => []
  end.

(** Where [get] continues, given what the future holds. *)
Definition resume (o : outcome) (k : int -> prog) (h : exn -> prog) : prog :=
  match o with
  | Val v => k v
  | Exn e => h e
  end.

(** The actions of main run to its end, when the future delivers [o]. *)
Fixpoint main_events (o : outcome) (p : prog) : list event :=
  match p with
  | Ret v => [Exited v]
  | Throw _ => [Terminated]
  | Put s text k => Write Main s text :: main_events o k
  | SleepFor secs k => Slept Main secs :: main_events o k
  | Async _ k => Launched :: main_events o k
  | Get k h => Retrieved o :: main_events o (resume o k h)
  end.

(** The handle as main sees it. *)
Inductive phase : Type := BeforeLaunch | InFlight | AfterGet.

(** Main uses the handle in order: it launches [task] once, then retrieves
    once, and only ends outside the window between the two. *)
Fixpoint protocol (task : prog) (ph : phase) (p : prog) : Prop :=
  match p with
  | Ret _ | Throw _ => ph <> InFlight
  | Put _ _ k | SleepFor _ k => protocol task ph k
  | Async w k => ph = BeforeLaunch /\ w = task /\ protocol task InFlight k
  | Get k h =>
      ph = InFlight /\ protocol task AfterGet (resume (task_outcome task) k h)
  end.

Definition rest_main (o : outcome) (c : config) : list event :=
  match main_thread c with
  | Some p => main_events o p
  | None => []
  end.

Definition rest_worker (c : config) : list event :=
  match worker_thread c with
  | Some w => task_events w
  | None => []
  end.

(** What every reachable configuration of [p0] satisfies, when [p0] follows
    the protocol with task [task]. *)
Record invariant (task p0 : prog) (c : config) : Prop := {
  inv_main :
    by_thread Main (log c) ++ rest_main (task_outcome task) c
    = main_events (task_outcome task) p0;
  inv_worker :
    by_thread Worker (log c) ++ rest_worker c
    = match fut c with
      | NoFuture => []
      | _ => task_events task
      end;
  inv_sync :
    sync (log c)
    = match fut c with
      | NoFuture => []
      | Pending => [Launched]
      | Ready o => [Launched; Completed o]
      | Consumed => [Launched; Completed (task_outcome task);
                     Retrieved (task_outcome task)]
      end;
  inv_phase :
    match fut c with
    | NoFuture =>
        worker_thread c = None /\
        forall p, main_thread c = Some p -> protocol task BeforeLaunch p
    | Pending =>
        (exists w, worker_thread c = Some w /\ is_task w = true /\
                   task_outcome w = task_outcome task) /\
        (exists p, main_thread c = Some p /\ protocol task InFlight p)
    | Ready o =>
        o = task_outcome task /\ worker_thread c = None /\
        (exists p, main_thread c = Some p /\ protocol task InFlight p)
    | Consumed =>
        worker_thread c = None /\
        forall p, main_thread c = Some p -> protocol task AfterGet p
    end
}.

(** ** Expected narration *)

(** The insertions of one output statement, as log entries. *)
Definition says (t : thread) (s : stream) (chunks : list string) : list event :=
  map (Write t s) chunks.

(** The worker's actions for argument [n] when it computes [r]. *)
Definition worker_script (n r : int) : list event :=
  says Worker Cout
    ["Worker thread: Starting calculation for "; show n; "..."; endl]
  ++ [Slept Worker 2]
  ++ says Worker Cout
    ["Worker thread: Calculation for "; show n; " finished. Result: ";
     show r; endl]
  ++ [Completed (Val r)].

(** Main's actions before the retrieval. *)
Definition main_before_get : list event :=
  says Main Cout ["Main thread: Starting the program."; endl]
  ++ [Launched]
  ++ says Main Cout
    ["Main thread: Doing other work while the calculation is in progress...";
     endl]
  ++ [Slept Main 1]
  ++ says Main Cout ["Main thread: Finished doing other work."; endl]
  ++ says Main Cout
    ["Main thread: Waiting for the asynchronous calculation to finish and getting the result.";
     endl].

(** Main's last actions. *)
Definition main_suffix : list event :=
  says Main Cout ["Main thread: Program finished."; endl] ++ [Exited 0].

(** Main's actions after retrieving the value [v]. *)
Definition main_after_value (v : int) : list event :=
  says Main Cout
    ["Main thread: Asynchronous calculation result: "; show v; endl]
  ++ main_suffix.

(** Main's actions after the retrieval rethrew a [std::exception] whose
    [what()] is [what]. *)
Definition main_after_caught (what : string) : list event :=
  says Main Cerr
    ["Main thread: An exception occurred during asynchronous execution: ";
     what; endl]
  ++ main_suffix.

Definition main_script_value (v : int) : list event :=
  main_before_get ++ Retrieved (Val v) :: main_after_value v.

Definition main_script_caught (what : string) : list event :=
  main_before_get ++ Retrieved (Exn (std_exception what))
                  :: main_after_caught what.

(** ** A concrete run *)

Definition repeat_thread (n : nat) (t : thread) : list thread := repeat t n.

(** The schedule behind the "Expected Output" printed at the end of the
    source file. *)
Definition expected_schedule : list thread :=
  repeat_thread 5 Main ++ repeat_thread 4 Worker ++ repeat_thread 5 Main
  ++ repeat_thread 7 Worker ++ repeat_thread 7 Main.

(** The log of that execution. *)
Definition expected_before_get : list event :=
  says Main Cout ["Main thread: Starting the program."; endl]
  ++ [Launched]
  ++ says Main Cout
    ["Main thread: Doing other work while the calculation is in progress...";
     endl]
  ++ says Worker Cout
    ["Worker thread: Starting calculation for "; "5"; "..."; endl]
  ++ [Slept Main 1]
  ++ says Main Cout ["Main thread: Finished doing other work."; endl]
  ++ says Main Cout
    ["Main thread: Waiting for the asynchronous calculation to finish and getting the result.";
     endl]
  ++ [Slept Worker 2]
  ++ says Worker Cout
    ["Worker thread: Calculation for "; "5"; " finished. Result: "; "25"; endl]
  ++ [Completed (Val 25)].

Definition expected_after_get : list event :=
  says Main Cout ["Main thread: Asynchronous calculation result: "; "25"; endl]
  ++ says Main Cout ["Main thread: Program finished."; endl]
  ++ [Exited 0].

Definition expected_log : list event :=
  expected_before_get ++ Retrieved (Val 25) :: expected_after_get.

Definition expected_final : config :=
  {| main_thread := None; worker_thread := None; fut := Consumed;
     log := expected_log |}.

(** Another schedule: the worker runs to its end as soon as it exists. *)
Definition eager_schedule : list thread :=
  repeat_thread 3 Main ++ repeat_thread 11 Worker ++ repeat_thread 14 Main.

(** A schedule for the faulty worker: as [expected_schedule], with the
    worker's sleep and throw in place of its second half. *)
Definition faulty_schedule : list thread :=
  repeat_thread 5 Main ++ repeat_thread 4 Worker ++ repeat_thread 5 Main
  ++ repeat_thread 2 Worker ++ repeat_thread 7 Main.

Definition eager_log : list event :=
  says Main Cout ["Main thread: Starting the program."; endl]
  ++ [Launched]
  ++ worker_script 5 25
  ++ says Main Cout
    ["Main thread: Doing other work while the calculation is in progress...";
     endl]
  ++ [Slept Main 1]
  ++ says Main Cout ["Main thread: Finished doing other work."; endl]
  ++ says Main Cout
    ["Main thread: Waiting for the asynchronous calculation to finish and getting the result.";
     endl]
  ++ Retrieved (Val 25) :: expected_after_get.

Definition eager_final : config :=
  {| main_thread := None; worker_thread := None; fut := Consumed;
     log := eager_log |}.

(** A worker whose simulated work fails with something that is not a
    [std::exception] (as [throw 42;] would).  Like [calculate_square_faulty],
    it is an input to [main_with], not code of the source. *)
Definition calculate_square_foreign_fault (number : int) : prog :=
  cout ["Worker thread: Starting calculation for "; show number; "..."; endl] ;;
  sleep_for 2 ;;
  Throw other_exception.

(** A schedule for it: after the retrieval main has one action left. *)
Definition foreign_fault_schedule : list thread :=
  repeat_thread 5 Main ++ repeat_thread 4 Worker ++ repeat_thread 5 Main
  ++ repeat_thread 2 Worker ++ repeat_thread 2 Main.

(** ** Counting schedules *)

(** How many actions each thread has in the log. *)
Definition main_count (c : config) : nat :=
  List.length (by_thread Main (log c)).

Definition worker_count (c : config) : nat :=
  List.length (by_thread Worker (log c)).

(** The schedules that take the program from a point where main has done
    [m] actions and the worker [w] to the end of main, by counting alone:
    main has 17 actions, of which the third is the launch (the worker has
    none before it) and the eleventh is [get] (the worker's 11 actions are
    all before it). *)
Fixpoint admissible (m w : nat) (sched : list thread) : bool :=
  match sched with
  | [] => Nat.eqb m 17
  | Main :: rest =>
      Nat.ltb m 17 && (negb (Nat.eqb m 10) || Nat.eqb w 11)
      && admissible (S m) w rest
  | Worker :: rest =>
      Nat.leb 3 m && Nat.ltb w 11 && admissible m (S w) rest
  end.

(** A schedule in which the two threads take turns inside a line. *)
Definition torn_schedule : list thread :=
  repeat_thread 4 Main ++ repeat_thread 3 Worker ++ [Main]
  ++ repeat_thread 8 Worker ++ repeat_thread 12 Main.

(** The log of that execution, for argument [n]. *)
Definition torn_log (n : int) : list event :=
  says Main Cout ["Main thread: Starting the program."; endl]
  ++ [Launched]
  ++ says Main Cout
    ["Main thread: Doing other work while the calculation is in progress..."]
  ++ says Worker Cout
    ["Worker thread: Starting calculation for "; show n; "..."]
  ++ says Main Cout [endl]
  ++ says Worker Cout [endl]
  ++ [Slept Worker 2]
  ++ says Worker Cout
    ["Worker thread: Calculation for "; show n; " finished. Result: ";
     show (int_mul n n); endl]
  ++ [Completed (Val (int_mul n n))]
  ++ [Slept Main 1]
  ++ says Main Cout ["Main thread: Finished doing other work."; endl]
  ++ says Main Cout
    ["Main thread: Waiting for the asynchronous calculation to finish and getting the result.";
     endl]
  ++ Retrieved (Val (int_mul n n)) :: main_after_value (int_mul n n).

Example show_25 : show 25 = "25".
Proof. reflexivity. Qed.

Example show_neg : show (-2147479015) = "-2147479015".
Proof. reflexivity. Qed.

Example mul_5 : int_mul 5 5 = 25.
Proof. reflexivity. Qed.

Example mul_overflow : int_mul 46341 46341 = -2147479015.
Proof. reflexivity. Qed.

(** ** Facts about logs *)

Lemma by_thread_app t l1 l2 :
  by_thread t (l1 ++ l2) = by_thread t l1 ++ by_thread t l2.
Proof. apply filter_app. Qed.

Lemma sync_app l1 l2 : sync (l1 ++ l2) = sync l1 ++ sync l2.
Proof. apply filter_app. Qed.

Lemma sync_In e l : In e (sync l) <-> In e l /\ is_sync e = true.
Proof. apply filter_In. Qed.

Lemma by_thread_In t e l :
  In e (by_thread t l) <-> In e l /\ event_thread e = t.
Proof.
  unfold by_thread. rewrite filter_In.
  destruct (event_thread e), t; simpl; intuition congruence.
Qed.

(** Every action belongs to exactly one of the two threads. *)
Lemma log_split l :
  List.length l = (List.length (by_thread Main l) + List.length (by_thread Worker l))%nat.
Proof.
  induction l as [|e l IH]; simpl; [reflexivity|].
  destruct (event_thread e); simpl; lia.
Qed.

Lemma exec_log t c c' :
  exec t c = Some c' -> exists e, log c' = log c ++ [e] /\ event_thread e = t.
Proof.
  destruct t; simpl; [unfold exec_main | unfold exec_worker]; intros H.
  - destruct (main_thread c) as [[v|e|s text k|secs k|w k|k h]|];
      try discriminate;
      try (destruct (fut c) as [| |[v'|e']|]; try discriminate);
      inversion H; subst; simpl; eexists; split; reflexivity.
  - destruct (worker_thread c) as [[v|e|s text k|secs k|w k|k h]|];
      try discriminate;
      inversion H; subst; simpl; eexists; split; reflexivity.
Qed.

Lemma run_app s1 s2 c :
  run (s1 ++ s2) c =
  match run s1 c with
  | Some c' => run s2 c'
  | None => None
  end.
Proof.
  revert c. induction s1 as [|t s1 IH]; intros c; simpl; [reflexivity|].
  destruct (exec t c); [apply IH | reflexivity].
Qed.

(** A schedule of [k] choices is an execution of [k] actions. *)
Lemma run_log_length sched c c' :
  run sched c = Some c' ->
  List.length (log c') = (List.length (log c) + List.length sched)%nat.
Proof.
  revert c. induction sched as [|t rest IH]; intros c H; simpl in *.
  - inversion H; subst. lia.
  - destruct (exec t c) as [c1|] eqn:E; [|discriminate].
    apply IH in H. destruct (exec_log _ _ _ E) as [e [Hl _]].
    rewrite H, Hl, length_app. simpl. lia.
Qed.

(** The log only grows. *)
Lemma run_log_prefix sched c c' :
  run sched c = Some c' -> exists l, log c' = log c ++ l.
Proof.
  revert c. induction sched as [|t rest IH]; intros c H; simpl in *.
  - inversion H; subst. exists []. now rewrite app_nil_r.
  - destruct (exec t c) as [c1|] eqn:E; [|discriminate].
    destruct (IH _ H) as [l Hl]. destruct (exec_log _ _ _ E) as [e [He _]].
    exists (e :: l). rewrite Hl, He, <- app_assoc. reflexivity.
Qed.

(** ** Facts about tasks *)

Lemma task_events_last w :
  is_task w = true ->
  exists l, task_events w = l ++ [Completed (task_outcome w)] /\
            forall o, ~ In (Completed o) l.
Proof.
  induction w as [v|e|s text k IH|secs k IH|w1 _ k _|k _ h _]; simpl; intros Hw;
    try discriminate.
  - exists []. split; [reflexivity | intros o []].
  - exists []. split; [reflexivity | intros o []].
  - destruct (IH Hw) as [l [-> Hl]]. exists (Write Worker s text :: l).
    split; [reflexivity|]. intros o [H|H]; [discriminate | eapply Hl; eauto].
  - destruct (IH Hw) as [l [-> Hl]]. exists (Slept Worker secs :: l).
    split; [reflexivity|]. intros o [H|H]; [discriminate | eapply Hl; eauto].
Qed.

Lemma bind_task_outcome w f :
  is_task w = true ->
  task_outcome (bind w f) =
  match task_outcome w with
  | Val v => task_outcome (f v)
  | Exn e => Exn e
  end.
Proof.
  induction w; simpl; intros Hw; try discriminate; auto.
Qed.

Lemma insert_is_task s chunks : is_task (insert s chunks) = true.
Proof. induction chunks; simpl; auto. Qed.

Lemma insert_outcome s chunks : task_outcome (insert s chunks) = Val 0.
Proof. induction chunks; simpl; auto. Qed.

(** ** The invariant *)

Section Invariant.

Variables task p0 : prog.
Hypothesis task_ok : is_task task = true.
Hypothesis p0_ok : protocol task BeforeLaunch p0.

Lemma invariant_init : invariant task p0 (init p0).
Proof.
  constructor; simpl; auto.
  split; [reflexivity|]. intros p H. inversion H; subst. exact p0_ok.
Qed.

Ltac log_simpl :=
  simpl; rewrite ?by_thread_app, ?sync_app; simpl;
  rewrite <- ?app_assoc, ?app_nil_r; simpl.

Lemma invariant_exec t c c' :
  invariant task p0 c -> exec t c = Some c' -> invariant task p0 c'.
Proof.
  intros [Hm Hw Hs Hp] H.
  unfold rest_main, rest_worker in *.
  destruct t; simpl in H; [unfold exec_main in H | unfold exec_worker in H].
  - destruct (main_thread c) as [[v|e|s text k|secs k|w k|k h]|] eqn:Em;
      try discriminate.
    + (* return *)
      destruct (fut c) as [| |o|] eqn:Ef; try discriminate;
        inversion H; subst; clear H.
      * constructor; log_simpl; rewrite ?Ef; auto.
        destruct Hp as [Hp _]. split; [assumption | discriminate].
      * destruct Hp as (_ & _ & p & Hp & Hpr). inversion Hp; subst.
        simpl in Hpr. congruence.
      * constructor; log_simpl; rewrite ?Ef; auto.
        destruct Hp as [Hp _]. split; [assumption | discriminate].
    + (* uncaught exception *)
      inversion H; subst; clear H.
      destruct (fut c) as [| |o|] eqn:Ef.
      * constructor; log_simpl; rewrite ?Ef; auto.
        -- destruct Hp as [Hp _]. rewrite Hp, app_nil_r in Hw. exact Hw.
        -- split; [reflexivity | discriminate].
      * destruct Hp as (_ & p & Hp & Hpr). inversion Hp; subst.
        simpl in Hpr. congruence.
      * destruct Hp as (_ & _ & p & Hp & Hpr). inversion Hp; subst.
        simpl in Hpr. congruence.
      * constructor; log_simpl; rewrite ?Ef; auto.
        -- destruct Hp as [Hp _]. rewrite Hp, app_nil_r in Hw. exact Hw.
        -- split; [reflexivity | discriminate].
    + (* insertion *)
      inversion H; subst; clear H.
      constructor; log_simpl; auto.
      destruct (fut c); simpl in *.
      * destruct Hp as [H1 H2]. split; [assumption|].
        intros p Hq. inversion Hq; subst. apply (H2 _ eq_refl).
      * destruct Hp as [H1 (p & Hq & H2)]. split; [assumption|].
        inversion Hq; subst. eexists; split; [reflexivity | exact H2].
      * destruct Hp as (H0 & H1 & p & Hq & H2). repeat split; auto.
        inversion Hq; subst. eexists; split; [reflexivity | exact H2].
      * destruct Hp as [H1 H2]. split; [assumption|].
        intros p Hq. inversion Hq; subst. apply (H2 _ eq_refl).
    + (* sleep *)
      inversion H; subst; clear H.
      constructor; log_simpl; auto.
      destruct (fut c); simpl in *.
      * destruct Hp as [H1 H2]. split; [assumption|].
        intros p Hq. inversion Hq; subst. apply (H2 _ eq_refl).
      * destruct Hp as [H1 (p & Hq & H2)]. split; [assumption|].
        inversion Hq; subst. eexists; split; [reflexivity | exact H2].
      * destruct Hp as (H0 & H1 & p & Hq & H2). repeat split; auto.
        inversion Hq; subst. eexists; split; [reflexivity | exact H2].
      * destruct Hp as [H1 H2]. split; [assumption|].
        intros p Hq. inversion Hq; subst. apply (H2 _ eq_refl).
    + (* launch *)
      destruct (fut c) as [| |o|] eqn:Ef; try discriminate.
      inversion H; subst; clear H.
      destruct Hp as [Hwn Hpr]. specialize (Hpr _ eq_refl).
      simpl in Hpr. destruct Hpr as (_ & -> & Hpr).
      rewrite Hwn in Hw. rewrite app_nil_r in Hw.
      constructor; log_simpl; auto.
      * rewrite Hw. reflexivity.
      * rewrite Hs. reflexivity.
      * split; eauto.
    + (* retrieval *)
      destruct (fut c) as [| |o|] eqn:Ef; try discriminate.
      destruct Hp as (-> & Hwn & p & Hq & Hpr). inversion Hq; subst.
      simpl in Hpr. destruct Hpr as [_ Hpr].
      destruct (task_outcome task) as [v|e] eqn:Eo;
        inversion H; subst; clear H; simpl in *.
      * constructor; log_simpl; rewrite ?Eo; auto.
        -- rewrite Hs. reflexivity.
        -- split; [assumption|]. intros p Hp. inversion Hp; subst. exact Hpr.
      * constructor; log_simpl; rewrite ?Eo; auto.
        -- rewrite Hs. reflexivity.
        -- split; [assumption|]. intros p Hp. inversion Hp; subst. exact Hpr.
  - destruct (worker_thread c) as [[v|e|s text k|secs k|w k|k h]|] eqn:Ew;
      try discriminate.
    + (* the task returns *)
      inversion H; subst; clear H.
      destruct (fut c) as [| |o|] eqn:Ef;
        try (destruct Hp as [Hp _]; congruence);
        try (destruct Hp as (_ & Hp & _); congruence).
      destruct Hp as [(w & Hq & Ht & Ho) Hpr].
      inversion Hq; subst. simpl in Ho.
      constructor; log_simpl; auto.
      rewrite Hs. reflexivity.
    + (* the task throws *)
      inversion H; subst; clear H.
      destruct (fut c) as [| |o|] eqn:Ef;
        try (destruct Hp as [Hp _]; congruence);
        try (destruct Hp as (_ & Hp & _); congruence).
      destruct Hp as [(w & Hq & Ht & Ho) Hpr].
      inversion Hq; subst. simpl in Ho.
      constructor; log_simpl; auto.
      rewrite Hs. reflexivity.
    + (* insertion *)
      inversion H; subst; clear H.
      destruct (fut c) as [| |o|] eqn:Ef;
        try (destruct Hp as [Hp _]; congruence);
        try (destruct Hp as (_ & Hp & _); congruence).
      destruct Hp as [(w & Hq & Ht & Ho) Hpr].
      inversion Hq; subst. simpl in Ho, Ht.
      constructor; log_simpl; rewrite ?Ef; auto.
      split; eauto.
    + (* sleep *)
      inversion H; subst; clear H.
      destruct (fut c) as [| |o|] eqn:Ef;
        try (destruct Hp as [Hp _]; congruence);
        try (destruct Hp as (_ & Hp & _); congruence).
      destruct Hp as [(w & Hq & Ht & Ho) Hpr].
      inversion Hq; subst. simpl in Ho, Ht.
      constructor; log_simpl; rewrite ?Ef; auto.
      split; eauto.
Qed.

Lemma invariant_run sched c c' :
  invariant task p0 c -> run sched c = Some c' -> invariant task p0 c'.
Proof.
  revert c. induction sched as [|t rest IH]; intros c Hc H; simpl in H.
  - inversion H; subst. exact Hc.
  - destruct (exec t c) as [c1|] eqn:E; [|discriminate].
    eapply IH; [|exact H]. eapply invariant_exec; eauto.
Qed.

(** Every configuration an execution of [p0] reaches satisfies the
    invariant. *)
Lemma invariant_reachable sched c :
  run sched (init p0) = Some c -> invariant task p0 c.
Proof. apply invariant_run, invariant_init. Qed.

Lemma task_enabled c w :
  worker_thread c = Some w -> is_task w = true ->
  exists c', exec Worker c = Some c'.
Proof.
  intros Hw Ht. simpl. unfold exec_worker. rewrite Hw.
  destruct w; simpl in Ht; try discriminate; eauto.
Qed.

(** No deadlock: while main has not ended, some thread can act. *)
Lemma invariant_progress c :
  invariant task p0 c -> ~ halted c -> exists t c', exec t c = Some c'.
Proof.
  intros [Hm Hw Hs Hp] Hh. unfold halted in Hh.
  destruct (main_thread c) as [p|] eqn:Em; [clear Hh | congruence].
  destruct (fut c) as [| |o|] eqn:Ef.
  - destruct Hp as [_ Hp]. specialize (Hp _ eq_refl).
    exists Main. simpl. unfold exec_main. rewrite Em, Ef.
    destruct p; simpl in Hp; eauto. destruct Hp; discriminate.
  - destruct Hp as [(w & Hq & Ht & _) (q & Hq' & Hp)].
    inversion Hq'; subst q.
    destruct p; simpl in Hp;
      try (exists Main; simpl; unfold exec_main; rewrite Em; now eauto);
      try congruence.
    exists Worker. eapply task_enabled; eauto.
  - destruct Hp as (_ & _ & q & Hq' & Hp). inversion Hq'; subst q.
    exists Main. simpl. unfold exec_main. rewrite Em, Ef.
    destruct p; simpl in Hp; eauto.
    + destruct Hp; discriminate.
    + destruct o; eauto.
  - destruct Hp as [_ Hp]. specialize (Hp _ eq_refl).
    exists Main. simpl. unfold exec_main. rewrite Em, Ef.
    destruct p; simpl in Hp; eauto; destruct Hp; discriminate.
Qed.

(** When main has ended, it has done all it had to do, the worker is gone,
    and nothing can act any more. *)
Lemma invariant_halted c :
  invariant task p0 c -> halted c ->
  by_thread Main (log c) = main_events (task_outcome task) p0 /\
  by_thread Worker (log c)
  = match fut c with NoFuture => [] | _ => task_events task end /\
  (fut c = NoFuture \/ fut c = Consumed) /\
  forall t, exec t c = None.
Proof.
  intros [Hm Hw Hs Hp] Hh. unfold halted in Hh.
  unfold rest_main, rest_worker in *. rewrite Hh in *.
  rewrite app_nil_r in Hm.
  assert (Hwn : worker_thread c = None /\
                (fut c = NoFuture \/ fut c = Consumed)).
  { destruct (fut c) as [| |o|].
    - destruct Hp; auto.
    - destruct Hp as (_ & p & Hq & _). discriminate.
    - destruct Hp as (_ & _ & p & Hq & _). discriminate.
    - destruct Hp; auto. }
  destruct Hwn as [Hwn Hf]. rewrite Hwn, app_nil_r in Hw.
  repeat split; auto.
  intros [|]; simpl; [unfold exec_main; rewrite Hh
                     | unfold exec_worker; rewrite Hwn]; reflexivity.
Qed.

(** No execution of [p0] is longer than the two threads' scripts. *)
Lemma invariant_bound c :
  invariant task p0 c ->
  (List.length (log c)
   <= List.length (main_events (task_outcome task) p0)
      + List.length (task_events task))%nat.
Proof.
  intros [Hm Hw _ _]. rewrite (log_split (log c)), <- Hm, length_app.
  assert (List.length (by_thread Worker (log c))
          <= List.length (task_events task))%nat; [|lia].
  destruct (fut c).
  - apply app_eq_nil in Hw. destruct Hw as [-> _]. simpl. lia.
  - rewrite <- Hw, length_app. lia.
  - rewrite <- Hw, length_app. lia.
  - rewrite <- Hw, length_app. lia.
Qed.

(** The handle's history is a prefix of launch, completion, retrieval. *)
Lemma invariant_sync_prefix c :
  invariant task p0 c ->
  exists rest,
    sync (log c) ++ rest
    = [Launched; Completed (task_outcome task);
       Retrieved (task_outcome task)].
Proof.
  intros [_ _ Hs Hp]. rewrite Hs. destruct (fut c) as [| |o|].
  - eexists; reflexivity.
  - eexists; reflexivity.
  - destruct Hp as [-> _]. eexists; reflexivity.
  - exists []; reflexivity.
Qed.

Lemma invariant_completed c o :
  invariant task p0 c -> In (Completed o) (log c) ->
  o = task_outcome task /\ fut c <> NoFuture /\ fut c <> Pending.
Proof.
  intros [_ _ Hs Hp] Hin.
  assert (H : In (Completed o) (sync (log c)))
    by (apply sync_In; auto).
  rewrite Hs in H. destruct (fut c) as [| |o'|]; simpl in H.
  - contradiction.
  - intuition discriminate.
  - destruct Hp as [-> _].
    destruct H as [H|[H|[]]]; [discriminate|]. inversion H; subst.
    repeat split; discriminate.
  - destruct H as [H|[H|[H|[]]]]; try discriminate. inversion H; subst.
    repeat split; discriminate.
Qed.

Lemma invariant_retrieved c o :
  invariant task p0 c -> In (Retrieved o) (log c) ->
  o = task_outcome task /\ fut c = Consumed.
Proof.
  intros [_ _ Hs Hp] Hin.
  assert (H : In (Retrieved o) (sync (log c)))
    by (apply sync_In; auto).
  rewrite Hs in H. destruct (fut c) as [| |o'|]; simpl in H.
  - contradiction.
  - intuition discriminate.
  - intuition discriminate.
  - destruct H as [H|[H|[H|[]]]]; try discriminate. inversion H; subst.
    auto.
Qed.

(** Wherever a retrieval stands in the log, the completion that fed it
    stands before it, and no other retrieval does. *)
Lemma invariant_order c l1 l2 o :
  invariant task p0 c -> log c = l1 ++ Retrieved o :: l2 ->
  In (Completed o) l1 /\
  (forall o', ~ In (Retrieved o') l1) /\
  (forall o', ~ In (Retrieved o') l2) /\
  (forall o', ~ In (Completed o') l2).
Proof.
  intros [_ _ Hs Hp] Hl.
  rewrite Hl, sync_app in Hs. simpl in Hs.
  assert (H1 : sync l1 = [Launched; Completed o] /\ sync l2 = []).
  { destruct (fut c) as [| |o'|];
      destruct (sync l1) as [|a [|b [|d l]]]; simpl in Hs;
      try discriminate; inversion Hs; subst; auto;
      try (destruct l; discriminate). }
  destruct H1 as [H1 H2].
  assert (Hin : forall e l, is_sync e = true -> In e l -> In e (sync l))
    by (intros; apply sync_In; auto).
  repeat split.
  - apply (sync_In (Completed o) l1). rewrite H1. simpl. auto.
  - intros o' H. apply Hin in H; [|reflexivity]. rewrite H1 in H.
    simpl in H. intuition discriminate.
  - intros o' H. apply Hin in H; [|reflexivity]. rewrite H2 in H.
    exact H.
  - intros o' H. apply Hin in H; [|reflexivity]. rewrite H2 in H.
    exact H.
Qed.

End Invariant.

(** ** Facts about [int] *)

Ltac int_consts :=
  unfold in_int_range, wrap, int_min, int_max, int_modulus, int_width in *;
  change (2 ^ (32 - 1)) with 2147483648 in *;
  change (2 ^ 32) with 4294967296 in *.

Lemma wrap_in_range z : in_int_range (wrap z).
Proof.
  int_consts.
  pose proof (Z.mod_pos_bound (z - - (2147483648)) 4294967296 eq_refl). lia.
Qed.

Lemma wrap_congruent z : (wrap z - z) mod int_modulus = 0.
Proof.
  int_consts.
  pose proof (Z.div_mod (z - - (2147483648)) 4294967296 ltac:(lia)) as H.
  replace ((z - - (2147483648)) mod 4294967296 + - (2147483648) - z)
    with (- ((z - - (2147483648)) / 4294967296) * 4294967296) by lia.
  apply Z.mod_mul. lia.
Qed.

Lemma wrap_exact z : in_int_range z -> wrap z = z.
Proof.
  int_consts. intros H. rewrite Z.mod_small; lia.
Qed.

(** Two values in the range of [int] that are congruent to the same number
    modulo [2^32] are equal. *)
Lemma wrap_unique r r' z :
  in_int_range r -> in_int_range r' ->
  (r - z) mod int_modulus = 0 -> (r' - z) mod int_modulus = 0 -> r' = r.
Proof.
  int_consts. intros Hr Hr' H H'.
  apply Z.mod_divide in H; [|lia]. apply Z.mod_divide in H'; [|lia].
  destruct H as [q Hq]. destruct H' as [q' Hq']. lia.
Qed.

Lemma int_mul_neg a : int_mul (- a) (- a) = int_mul a a.
Proof. unfold int_mul. f_equal. lia. Qed.

(** The squares that fit in an [int] are those of [0 .. 46340]. *)
Lemma square_exact n : 0 <= n <= 46340 -> int_mul n n = n * n.
Proof.
  intros H. apply wrap_exact. int_consts. nia.
Qed.

(** ** Facts about the program *)

Lemma worker_is_task n : is_task (calculate_square_async n) = true.
Proof. reflexivity. Qed.

Lemma worker_outcome n :
  task_outcome (calculate_square_async n) = Val (int_mul n n).
Proof. reflexivity. Qed.

Lemma worker_events n :
  task_events (calculate_square_async n) = worker_script n (int_mul n n).
Proof. reflexivity. Qed.

Lemma main_with_protocol task arg :
  protocol (task arg) BeforeLaunch (main_with task arg).
Proof.
  simpl. split; [reflexivity|]. split; [reflexivity|]. simpl.
  split; [reflexivity|].
  destruct (task_outcome (task arg)) as [v|[what|]]; simpl; discriminate.
Qed.

Lemma main_events_value task arg v :
  main_events (Val v) (main_with task arg) = main_script_value v.
Proof. reflexivity. Qed.

Lemma main_events_caught task arg what :
  main_events (Exn (std_exception what)) (main_with task arg)
  = main_script_caught what.
Proof. reflexivity. Qed.

Lemma main_with_reachable task arg sched c :
  is_task (task arg) = true ->
  run sched (init (main_with task arg)) = Some c ->
  invariant (task arg) (main_with task arg) c.
Proof.
  intros Ht. apply invariant_reachable; [exact Ht | apply main_with_protocol].
Qed.

Lemma square_reachable n sched c :
  run sched (init (main_with calculate_square_async n)) = Some c ->
  invariant (calculate_square_async n) (main_with calculate_square_async n) c.
Proof. apply main_with_reachable, worker_is_task. Qed.

Lemma run_expected : run expected_schedule (init main) = Some expected_final.
Proof. reflexivity. Qed.

Lemma run_eager : run eager_schedule (init main) = Some eager_final.
Proof. reflexivity. Qed.

(** The console after the expected run is the "Expected Output" of the
    source file, character for character. *)
Example expected_output :
  console Cout expected_log =
"Main thread: Starting the program.
Main thread: Doing other work while the calculation is in progress...
Worker thread: Starting calculation for 5...
Main thread: Finished doing other work.
Main thread: Waiting for the asynchronous calculation to finish and getting the result.
Worker thread: Calculation for 5 finished. Result: 25
Main thread: Asynchronous calculation result: 25
Main thread: Program finished.
".
Proof. reflexivity. Qed.

Example expected_errors : console Cerr expected_log = "".
Proof. reflexivity. Qed.

(** With the fault injected, the result line is replaced by the diagnostic
    on [cerr]. *)
Example faulty_output :
  console Cout
    (log (run_to faulty_schedule (main_with calculate_square_faulty 5))) =
"Main thread: Starting the program.
Main thread: Doing other work while the calculation is in progress...
Worker thread: Starting calculation for 5...
Main thread: Finished doing other work.
Main thread: Waiting for the asynchronous calculation to finish and getting the result.
Main thread: Program finished.
".
Proof. reflexivity. Qed.

Example faulty_errors :
  console Cerr
    (log (run_to faulty_schedule (main_with calculate_square_faulty 5))) =
"Main thread: An exception occurred during asynchronous execution: ComputationError: simulated work failed
".
Proof. reflexivity. Qed.

(** An exception that is not a [std::exception] passes the handler and
    ends the process. *)
Example foreign_exception_terminates :
  option_map (fun c => (main_thread c, last (log c) Launched))
    (run (repeat_thread 3 Main ++ [Worker] ++ repeat_thread 9 Main)
       (init (main_with (fun _ => Throw other_exception) 5)))
  = Some (None, Terminated).
Proof. reflexivity. Qed.

(** ** Facts about splitting a log *)

Lemma by_thread_only_main l : by_thread Worker l = [] -> by_thread Main l = l.
Proof.
  induction l as [|e l IH]; simpl; [reflexivity|].
  destruct (event_thread e); simpl; intros H; [|discriminate].
  f_equal. apply IH, H.
Qed.

Lemma split_unique (x : event) a b a' b' :
  a ++ x :: b = a' ++ x :: b' -> ~ In x a -> ~ In x a' -> a = a' /\ b = b'.
Proof.
  revert a'. induction a as [|y a IH]; intros [|y' a'] H Ha Ha'; simpl in *.
  - inversion H; auto.
  - inversion H; subst. exfalso. apply Ha'. auto.
  - inversion H; subst. exfalso. apply Ha. auto.
  - inversion H; subst.
    destruct (IH a' H2) as [-> ->]; auto.
Qed.

Section AfterRetrieval.

Variables task p0 : prog.
Hypothesis task_ok : is_task task = true.

(** Once the outcome has been retrieved, only main acts. *)
Lemma invariant_after_retrieval c l1 l2 o :
  invariant task p0 c -> log c = l1 ++ Retrieved o :: l2 ->
  by_thread Main l2 = l2.
Proof.
  intros Hinv Hl. apply by_thread_only_main.
  destruct (invariant_order _ _ _ _ _ _ Hinv Hl) as (Hc & _).
  assert (Hin : In (Retrieved o) (log c))
    by (rewrite Hl; apply in_or_app; right; left; reflexivity).
  destruct (invariant_retrieved _ _ _ _ Hinv Hin) as [_ Hf].
  destruct Hinv as [_ Hw _ Hp]. rewrite Hf in Hw, Hp.
  destruct Hp as [Hwn _]. unfold rest_worker in Hw.
  rewrite Hwn, app_nil_r, Hl, by_thread_app in Hw. simpl in Hw.
  destruct (task_events_last _ task_ok) as (l & El & Hn). rewrite El in Hw.
  destruct (by_thread Worker l2) as [|y Y] eqn:E; [reflexivity|].
  exfalso.
  assert (Hne : y :: Y <> []) by discriminate.
  destruct (exists_last Hne) as (Y' & z & Ey). rewrite Ey in Hw.
  rewrite app_assoc in Hw. apply app_inj_tail in Hw. destruct Hw as [Hw _].
  apply (Hn o). rewrite <- Hw. apply in_or_app. left.
  apply by_thread_In. split; [exact Hc | reflexivity].
Qed.

(** When main has ended, the log ends with what main did after the
    retrieval. *)
Lemma invariant_halted_tail c pre post :
  invariant task p0 c -> halted c ->
  main_events (task_outcome task) p0
  = pre ++ Retrieved (task_outcome task) :: post ->
  ~ In (Retrieved (task_outcome task)) pre ->
  exists l1,
    log c = l1 ++ Retrieved (task_outcome task) :: post /\
    by_thread Main l1 = pre /\
    In (Completed (task_outcome task)) l1.
Proof.
  intros Hinv Hh Hscript Hpre.
  destruct (invariant_halted _ _ _ Hinv Hh) as (Hm & _).
  assert (Hin : In (Retrieved (task_outcome task)) (log c)).
  { apply (by_thread_In Main). rewrite Hm, Hscript.
    apply in_or_app. right. left. reflexivity. }
  apply in_split in Hin. destruct Hin as (l1 & l2 & Hl).
  destruct (invariant_order _ _ _ _ _ _ Hinv Hl) as (Hc & Hr1 & _).
  pose proof (invariant_after_retrieval _ _ _ _ Hinv Hl) as Hl2.
  rewrite Hl, by_thread_app in Hm. simpl in Hm. rewrite Hl2, Hscript in Hm.
  apply split_unique in Hm; auto.
  - destruct Hm as [E1 E2]. exists l1. subst l2. auto.
  - intros H. apply by_thread_In in H. destruct H as [H _].
    exact (Hr1 _ H).
Qed.

End AfterRetrieval.

(** Every execution of [main_with task arg] can go on until main ends, and
    none is longer than the two scripts together. *)
Lemma main_with_completes task arg sched c :
  is_task (task arg) = true ->
  run sched (init (main_with task arg)) = Some c ->
  (~ halted c -> exists t c', exec t c = Some c') /\
  (List.length sched
   <= List.length (main_events (task_outcome (task arg)) (main_with task arg))
      + List.length (task_events (task arg)))%nat.
Proof.
  intros Ht Hr. pose proof (main_with_reachable _ _ _ _ Ht Hr) as Hinv. split.
  - apply (invariant_progress _ _ _ Hinv).
  - pose proof (run_log_length _ _ _ Hr) as Hlen. simpl in Hlen.
    rewrite <- Hlen. apply (invariant_bound _ _ _ Hinv).
Qed.

(** Every execution of the program on argument [n] has at most 28 actions
    and can go on until main ends. *)
Lemma square_completes n sched c :
  run sched (init (main_with calculate_square_async n)) = Some c ->
  (~ halted c -> exists t c', exec t c = Some c') /\
  (List.length sched <= 28)%nat.
Proof.
  intros Hr.
  destruct (main_with_completes calculate_square_async n sched c
              (worker_is_task n) Hr) as [Hp Hb].
  split; [exact Hp|].
  rewrite worker_outcome, main_events_value, worker_events in Hb.
  exact Hb.
Qed.

Lemma occurs_once (x : event) a b a' b' :
  a ++ x :: b = a' ++ x :: b' -> ~ In x a -> ~ In x b -> a = a' /\ b = b'.
Proof.
  revert a'. induction a as [|y a IH]; intros [|y' a'] H Ha Hb; simpl in *.
  - inversion H; auto.
  - inversion H; subst. exfalso. apply Hb, in_or_app. right. left. reflexivity.
  - inversion H; subst. exfalso. apply Ha. auto.
  - inversion H; subst.
    destruct (IH a' H2) as [-> ->]; auto.
Qed.

Lemma string_app_nil_r (s : string) : (s ++ "")%string = s.
Proof. induction s as [|a s IH]; simpl; [reflexivity | now rewrite IH]. Qed.

Lemma string_app_assoc (a b c : string) :
  ((a ++ b) ++ c)%string = (a ++ (b ++ c))%string.
Proof. induction a as [|x a IH]; simpl; [reflexivity | now rewrite IH]. Qed.

Lemma console_app s l1 l2 :
  console s (l1 ++ l2) = (console s l1 ++ console s l2)%string.
Proof.
  induction l1 as [|e l1 IH]; simpl; [reflexivity|].
  destruct e; auto.
  destruct (stream_eqb s0 s); auto.
  rewrite IH. symmetry. apply string_app_assoc.
Qed.

(** Every action in the log of a reachable configuration is in the script
    of the thread that did it. *)
Lemma invariant_event_in_script task p0 c e :
  invariant task p0 c -> In e (log c) ->
  (event_thread e = Main /\ In e (main_events (task_outcome task) p0)) \/
  (event_thread e = Worker /\ In e (task_events task)).
Proof.
  intros [Hm Hw _ _] Hin. destruct (event_thread e) eqn:Et.
  - left. split; [reflexivity|]. rewrite <- Hm. apply in_or_app. left.
    apply by_thread_In. auto.
  - right. split; [reflexivity|].
    assert (H : In e (by_thread Worker (log c) ++ rest_worker c)).
    { apply in_or_app. left. apply by_thread_In. auto. }
    rewrite Hw in H. destruct (fut c); [contradiction | | |]; exact H.
Qed.

(** What one action of the worker changes: never main; the log by one
    entry of its own; the future only when the task ends. *)
Lemma exec_worker_frame c c' :
  exec Worker c = Some c' ->
  main_thread c' = main_thread c /\
  exists e,
    log c' = log c ++ [e] /\ event_thread e = Worker /\
    (fut c' = fut c \/ exists o, e = Completed o /\ fut c' = Ready o).
Proof.
  simpl. unfold exec_worker.
  destruct (worker_thread c) as [[v|e|s text k|secs k|w k|k h]|];
    try discriminate; intros H; inversion H; subst; clear H; simpl;
    (split; [reflexivity|]); eexists; (split; [reflexivity|]);
    (split; [reflexivity|]); eauto.
Qed.

Lemma run_snoc sched t c c1 c' :
  run sched c = Some c1 -> exec t c1 = Some c' ->
  run (sched ++ [t]) c = Some c'.
Proof.
  intros H1 H2. rewrite run_app, H1. simpl. rewrite H2. reflexivity.
Qed.

Ltac find_in_log := simpl; repeat (first [left; reflexivity | right]).

(** When main has ended, the square has been retrieved. *)
Lemma square_halted_retrieved n sched c :
  run sched (init (main_with calculate_square_async n)) = Some c ->
  halted c -> In (Retrieved (Val (int_mul n n))) (log c).
Proof.
  intros Hr Hh. pose proof (square_reachable _ _ _ Hr) as Hinv.
  destruct (invariant_halted _ _ _ Hinv Hh) as (Hm & _).
  apply (by_thread_In Main). rewrite Hm, worker_outcome, main_events_value.
  unfold main_script_value, main_before_get. find_in_log.
Qed.

(** * The claims *)

(** C1 (amended).  For every [n] with [0 <= n <= 46340], the values whose
    square fits in an [int], retrieval from the handle of
    [calculate_square_async(n)] yields [n * n]: that is the outcome taken
    from the future, and it is the value [get] hands to main, the number on
    main's result line.  In every execution what main has done is an
    initial part of the script whose result line shows [n * n]; when main
    has ended, the log ends with the retrieval of [n * n], the result line
    showing [n * n], "Program finished." and the return of 0; and every
    execution can run to that end, in at most 28 actions. *)
Theorem C1_retrieval_yields_square :
  forall n sched c,
    0 <= n <= 46340 ->
    run sched (init (main_with calculate_square_async n)) = Some c ->
    (forall o, In (Retrieved o) (log c) -> o = Val (n * n)) /\
    (halted c -> In (Retrieved (Val (n * n))) (log c)) /\
    (~ halted c -> exists t c', exec t c = Some c') /\
    (List.length sched <= 28)%nat /\
    (exists rest,
        by_thread Main (log c) ++ rest = main_script_value (n * n)) /\
    (halted c ->
     exists l,
       In (Completed (Val (n * n))) l /\
       log c
       = l ++ [Retrieved (Val (n * n))]
           ++ says Main Cout
                ["Main thread: Asynchronous calculation result: ";
                 show (n * n); endl]
           ++ says Main Cout ["Main thread: Program finished."; endl]
           ++ [Exited 0]).
Proof.
  intros n sched c Hn Hr.
  pose proof (square_reachable _ _ _ Hr) as Hinv.
  rewrite <- (square_exact n Hn).
  split; [|split; [|split; [|split; [|split]]]].
  - intros o Ho.
    destruct (invariant_retrieved _ _ _ _ Hinv Ho) as [-> _].
    apply worker_outcome.
  - apply (square_halted_retrieved _ _ _ Hr).
  - apply (square_completes _ _ _ Hr).
  - apply (square_completes _ _ _ Hr).
  - destruct Hinv as [Hm _ _ _].
    rewrite worker_outcome, main_events_value in Hm.
    exists (rest_main (Val (int_mul n n)) c). exact Hm.
  - intros Hh.
    destruct (invariant_halted_tail _ _ (worker_is_task n) c main_before_get
                (main_after_value (int_mul n n)) Hinv Hh)
      as (l & Hl & _ & Hc).
    + reflexivity.
    + simpl. intuition discriminate.
    + exists l. split; [exact Hc | exact Hl].
Qed.

(** For input 0, the run of the source's expected output retrieves 0 and
    main's result line shows 0. *)
Lemma C1_witness_zero :
  exists l,
    In (Completed (Val 0)) l /\
    log (run_to expected_schedule (main_with calculate_square_async 0))
    = l ++ [Retrieved (Val 0)]
        ++ says Main Cout
             ["Main thread: Asynchronous calculation result: "; "0"; endl]
        ++ says Main Cout ["Main thread: Program finished."; endl]
        ++ [Exited 0].
Proof.
  apply (C1_retrieval_yields_square 0 expected_schedule
           (run_to expected_schedule (main_with calculate_square_async 0))).
  - lia.
  - vm_compute. reflexivity.
  - vm_compute. reflexivity.
Defined.

(** C1 as stated fails: 46341 is a non-negative [int], and what is retrieved
    for it is an [int], which [46341 * 46341 = 2147488281] is not. *)
Lemma C1_counterexample_46341 :
  ~ (forall n sched c o,
        0 <= n -> in_int_range n ->
        run sched (init (main_with calculate_square_async n)) = Some c ->
        In (Retrieved o) (log c) -> o = Val (n * n)).
Proof.
  intros H.
  specialize (H 46341 expected_schedule
                (run_to expected_schedule (main_with calculate_square_async 46341))
                (Val (-2147479015))).
  assert (E : Val (-2147479015) = Val (46341 * 46341)).
  { apply H.
    - lia.
    - int_consts. lia.
    - vm_compute. reflexivity.
    - apply (square_halted_retrieved 46341 expected_schedule);
        vm_compute; reflexivity. }
  discriminate E.
Qed.

(** C2.  Let the launched task end by throwing a [std::exception] whose
    [what()] is [what].  Then in every execution: what retrieval delivers
    at the call site is that exception, never a value; no result line is
    printed; the exception never leaves main ([std::terminate] is never
    reached); the execution can always go on until main ends; and when main
    has ended, the log ends with the retrieval, the diagnostic on [cerr]
    carrying [what], the line "Program finished." and the return of 0. *)
Theorem C2_failure_is_caught :
  forall task arg what sched c,
    is_task (task arg) = true ->
    task_outcome (task arg) = Exn (std_exception what) ->
    run sched (init (main_with task arg)) = Some c ->
    (forall o, In (Retrieved o) (log c) -> o = Exn (std_exception what)) /\
    ~ In (Write Main Cout "Main thread: Asynchronous calculation result: ")
         (log c) /\
    ~ In Terminated (log c) /\
    (~ halted c -> exists t c', exec t c = Some c') /\
    (List.length sched <= 17 + List.length (task_events (task arg)))%nat /\
    (halted c ->
     exists l,
       In (Completed (Exn (std_exception what))) l /\
       log c
       = l ++ [Retrieved (Exn (std_exception what))]
           ++ says Main Cerr
                ["Main thread: An exception occurred during asynchronous execution: ";
                 what; endl]
           ++ says Main Cout ["Main thread: Program finished."; endl]
           ++ [Exited 0]).
Proof.
  intros task arg what sched c Ht Ho Hr.
  pose proof (main_with_reachable _ _ _ _ Ht Hr) as Hinv.
  assert (Hscript : main_events (task_outcome (task arg)) (main_with task arg)
                    = main_script_caught what)
    by (rewrite Ho; apply main_events_caught).
  split; [|split; [|split; [|split; [|split]]]].
  - intros o Hin.
    destruct (invariant_retrieved _ _ _ _ Hinv Hin) as [-> _]. exact Ho.
  - intros Hin.
    destruct (invariant_event_in_script _ _ _ _ Hinv Hin) as [[_ H]|[H _]];
      [|discriminate].
    rewrite Hscript in H. simpl in H. intuition discriminate.
  - intros Hin.
    destruct (invariant_event_in_script _ _ _ _ Hinv Hin) as [[_ H]|[H _]];
      [|discriminate].
    rewrite Hscript in H. simpl in H. intuition discriminate.
  - apply (main_with_completes _ _ _ _ Ht Hr).
  - destruct (main_with_completes _ _ _ _ Ht Hr) as [_ Hb].
    rewrite Hscript in Hb. exact Hb.
  - intros Hh.
    destruct (invariant_halted_tail _ _ Ht c main_before_get
                (main_after_caught what) Hinv Hh) as (l & Hl & _ & Hc).
    + rewrite Ho. reflexivity.
    + simpl. intuition discriminate.
    + rewrite Ho in Hl, Hc. exists l. split; [exact Hc | exact Hl].
Qed.

Lemma C2_witness_faulty_worker :
  exists l,
    In (Completed computation_error_outcome) l /\
    log (run_to faulty_schedule (main_with calculate_square_faulty 5))
    = l ++ [Retrieved computation_error_outcome]
        ++ says Main Cerr
             ["Main thread: An exception occurred during asynchronous execution: ";
              "ComputationError: simulated work failed"; endl]
        ++ says Main Cout ["Main thread: Program finished."; endl]
        ++ [Exited 0].
Proof.
  apply (C2_failure_is_caught calculate_square_faulty 5
           "ComputationError: simulated work failed" faulty_schedule
           (run_to faulty_schedule (main_with calculate_square_faulty 5))).
  - vm_compute. reflexivity.
  - vm_compute. reflexivity.
  - vm_compute. reflexivity.
  - vm_compute. reflexivity.
Defined.

(** C3.  In every execution, whatever task is launched, each retrieval in
    the log has the completion that stored its outcome before it: the
    caller never observes a result the worker has not yet delivered. *)
Theorem C3_retrieval_after_completion :
  forall task arg sched c l1 l2 o,
    is_task (task arg) = true ->
    run sched (init (main_with task arg)) = Some c ->
    log c = l1 ++ Retrieved o :: l2 ->
    In (Completed o) l1.
Proof.
  intros task arg sched c l1 l2 o Ht Hr Hl.
  pose proof (main_with_reachable _ _ _ _ Ht Hr) as Hinv.
  apply (invariant_order _ _ _ _ _ _ Hinv Hl).
Qed.

Lemma C3_witness_expected_run :
  In (Completed (Val 25)) expected_before_get.
Proof.
  apply (C3_retrieval_after_completion calculate_square_async 5
           expected_schedule expected_final
           expected_before_get expected_after_get (Val 25)).
  - vm_compute. reflexivity.
  - vm_compute. reflexivity.
  - vm_compute. reflexivity.
Defined.

(** C4.  (a) In every execution, whatever task is launched: while the
    future is pending, main has an action whenever it is not standing at
    [get], and that action leaves the future pending and the worker as it
    was; so nothing between the launch and [get] waits for the worker.
    (b) The five first actions of main, the launch among them, form an
    execution on their own: the statement after the launch has printed its
    line while the worker has not taken a single step.  (c) In the
    execution behind the source's expected output, main's line after the
    launch comes before the worker's first line, and main's next line
    between the worker's two lines. *)
Theorem C4_launch_does_not_block :
  forall task arg sched c,
    is_task (task arg) = true ->
    run sched (init (main_with task arg)) = Some c ->
    (fut c = Pending ->
     (forall k h, main_thread c <> Some (Get k h)) ->
     exists c',
       exec Main c = Some c' /\ fut c' = Pending /\
       worker_thread c' = worker_thread c) /\
    (exists k,
        run (repeat_thread 5 Main) (init (main_with task arg))
        = Some {| main_thread := Some k;
                  worker_thread := Some (task arg);
                  fut := Pending;
                  log := says Main Cout
                           ["Main thread: Starting the program."; endl]
                         ++ [Launched]
                         ++ says Main Cout
                           ["Main thread: Doing other work while the calculation is in progress...";
                            endl] |}) /\
    (exists c1 l1 l2 l3,
        run expected_schedule (init main) = Some c1 /\
        log c1
        = l1
          ++ says Worker Cout
               ["Worker thread: Starting calculation for "; "5"; "..."; endl]
          ++ l2
          ++ says Worker Cout
               ["Worker thread: Calculation for "; "5"; " finished. Result: ";
                "25"; endl]
          ++ l3 /\
        In Launched l1 /\
        In (Write Main Cout
              "Main thread: Doing other work while the calculation is in progress...")
           l1 /\
        In (Write Main Cout "Main thread: Finished doing other work.") l2).
Proof.
  intros task arg sched c Ht Hr.
  pose proof (main_with_reachable _ _ _ _ Ht Hr) as Hinv.
  split; [|split].
  - intros Hf Hget. destruct Hinv as [_ _ _ Hp]. rewrite Hf in Hp.
    destruct Hp as [_ (p & Hm & Hpr)].
    unfold exec, exec_main. rewrite Hm.
    destruct p as [v|e|s text k|secs k|w k|k h]; simpl in Hpr.
    + congruence.
    + congruence.
    + eexists. split; [reflexivity|]. simpl. auto.
    + eexists. split; [reflexivity|]. simpl. auto.
    + destruct Hpr as [Hpr _]. discriminate Hpr.
    + exfalso. exact (Hget k h Hm).
  - eexists. reflexivity.
  - exists expected_final.
    exists (says Main Cout ["Main thread: Starting the program."; endl]
            ++ [Launched]
            ++ says Main Cout
              ["Main thread: Doing other work while the calculation is in progress...";
               endl]).
    exists ([Slept Main 1]
            ++ says Main Cout ["Main thread: Finished doing other work."; endl]
            ++ says Main Cout
              ["Main thread: Waiting for the asynchronous calculation to finish and getting the result.";
               endl]
            ++ [Slept Worker 2]).
    exists (Completed (Val 25) :: Retrieved (Val 25) :: expected_after_get).
    split; [reflexivity|]. split; [reflexivity|].
    split; [find_in_log|]. split; find_in_log.
Qed.

Lemma C4_witness_after_launch :
  exists c',
    exec Main (run_to (repeat_thread 3 Main) main) = Some c' /\
    fut c' = Pending /\
    worker_thread c' = Some (calculate_square_async 5).
Proof.
  apply (C4_launch_does_not_block calculate_square_async 5
           (repeat_thread 3 Main) (run_to (repeat_thread 3 Main) main)).
  - vm_compute. reflexivity.
  - vm_compute. reflexivity.
  - vm_compute. reflexivity.
  - intros k h H. vm_compute in H. discriminate H.
Defined.

(** C5.  In every execution of the program as written (argument 5): any
    value retrieved is 25, and 25 is what [get] hands to main: what main
    has done is always an initial part of the script whose result line
    shows 25, and when main has ended the log ends with the retrieval of
    25, the line "Main thread: Asynchronous calculation result: 25",
    "Program finished." and the return of 0; whenever the worker's second line has begun in
    the log, its whole first line, "Worker thread: Starting calculation for
    5..." and the end of line, and the sleep are before it; when main has
    ended, 25 has been retrieved and the worker has written exactly its two
    lines, the second one announcing the result 25; and the execution can
    always go on until main ends. *)
Theorem C5_input_5_yields_25 :
  forall sched c,
    run sched (init main) = Some c ->
    (forall o, In (Retrieved o) (log c) -> o = Val 25) /\
    (forall l1 l2,
        log c = l1 ++ Write Worker Cout "Worker thread: Calculation for " :: l2 ->
        by_thread Worker l1
        = says Worker Cout
            ["Worker thread: Starting calculation for "; "5"; "..."; endl]
          ++ [Slept Worker 2]) /\
    (halted c ->
     In (Retrieved (Val 25)) (log c) /\
     by_thread Worker (log c)
     = says Worker Cout
         ["Worker thread: Starting calculation for "; "5"; "..."; endl]
       ++ [Slept Worker 2]
       ++ says Worker Cout
         ["Worker thread: Calculation for "; "5"; " finished. Result: ";
          "25"; endl]
       ++ [Completed (Val 25)]) /\
    (~ halted c -> exists t c', exec t c = Some c') /\
    (exists rest,
        by_thread Main (log c) ++ rest
        = main_before_get
          ++ [Retrieved (Val 25)]
          ++ says Main Cout
               ["Main thread: Asynchronous calculation result: "; "25"; endl]
          ++ says Main Cout ["Main thread: Program finished."; endl]
          ++ [Exited 0]) /\
    (halted c ->
     exists l,
       In (Completed (Val 25)) l /\
       log c
       = l ++ [Retrieved (Val 25)]
           ++ says Main Cout
                ["Main thread: Asynchronous calculation result: "; "25"; endl]
           ++ says Main Cout ["Main thread: Program finished."; endl]
           ++ [Exited 0]).
Proof.
  intros sched c Hr.
  pose proof (square_reachable 5 sched c Hr) as Hinv.
  split; [|split; [|split; [|split; [|split]]]].
  - intros o Hin.
    destruct (invariant_retrieved _ _ _ _ Hinv Hin) as [-> _]. reflexivity.
  - intros l1 l2 Hl.
    destruct Hinv as [_ Hw _ _].
    rewrite Hl, by_thread_app in Hw. simpl in Hw.
    rewrite <- app_assoc in Hw. simpl in Hw.
    assert (Hscript :
      by_thread Worker l1
      ++ Write Worker Cout "Worker thread: Calculation for "
         :: by_thread Worker l2 ++ rest_worker c
      = task_events (calculate_square_async 5)).
    { destruct (fut c); [|exact Hw..].
      destruct (by_thread Worker l1); discriminate Hw. }
    clear Hw. symmetry in Hscript.
    destruct (occurs_once
                (Write Worker Cout "Worker thread: Calculation for ")
                (says Worker Cout
                   ["Worker thread: Starting calculation for "; "5"; "...";
                    endl] ++ [Slept Worker 2])
                (says Worker Cout ["5"; " finished. Result: "; "25"; endl]
                 ++ [Completed (Val 25)])
                (by_thread Worker l1)
                (by_thread Worker l2 ++ rest_worker c)
                Hscript) as [E _].
    + simpl. intuition discriminate.
    + simpl. intuition discriminate.
    + symmetry. exact E.
  - intros Hh. split.
    + apply (square_halted_retrieved 5 sched c Hr Hh).
    + destruct (invariant_halted _ _ _ Hinv Hh) as (_ & Hw & [Hf|Hf] & _).
      * destruct (invariant_halted_tail _ _ (worker_is_task 5) c
                    main_before_get (main_after_value 25) Hinv Hh)
          as (l & Hl & _ & Hc).
        -- reflexivity.
        -- simpl. intuition discriminate.
        -- exfalso.
           assert (Hin : In (Completed (Val 25)) (log c))
             by (rewrite Hl; apply in_or_app; left; exact Hc).
           destruct (invariant_completed _ _ _ _ Hinv Hin) as (_ & H & _).
           exact (H Hf).
      * rewrite Hf in Hw. exact Hw.
  - apply (square_completes 5 sched c Hr).
  - destruct Hinv as [Hm _ _ _].
    exists (rest_main (Val 25) c). exact Hm.
  - intros Hh.
    destruct (invariant_halted_tail _ _ (worker_is_task 5) c main_before_get
                (main_after_value 25) Hinv Hh) as (l & Hl & _ & Hc).
    + reflexivity.
    + simpl. intuition discriminate.
    + exists l. split; [exact Hc | exact Hl].
Qed.

Lemma C5_witness_expected_run :
  exists l,
    In (Completed (Val 25)) l /\
    expected_log
    = l ++ [Retrieved (Val 25)]
        ++ says Main Cout
             ["Main thread: Asynchronous calculation result: "; "25"; endl]
        ++ says Main Cout ["Main thread: Program finished."; endl]
        ++ [Exited 0].
Proof.
  apply (C5_input_5_yields_25 expected_schedule expected_final).
  - vm_compute. reflexivity.
  - vm_compute. reflexivity.
Defined.

(** C6.  In every execution, whatever task is launched: the history of the
    handle is a prefix of launch, one completion, one retrieval, in that
    order, and it is all of it once main has ended; a completion is always
    an action of the worker and a retrieval an action of main; as long as
    no completion is in the log, main standing at [get] has no action at
    all, so it waits and reads nothing; and the execution can always go on
    until main ends. *)
Theorem C6_one_shot_slot :
  forall task arg sched c,
    is_task (task arg) = true ->
    run sched (init (main_with task arg)) = Some c ->
    (exists rest,
        sync (log c) ++ rest
        = [Launched; Completed (task_outcome (task arg));
           Retrieved (task_outcome (task arg))]) /\
    (halted c ->
     sync (log c)
     = [Launched; Completed (task_outcome (task arg));
        Retrieved (task_outcome (task arg))]) /\
    (forall t c' o,
        exec t c = Some c' -> log c' = log c ++ [Completed o] -> t = Worker) /\
    (forall t c' o,
        exec t c = Some c' -> log c' = log c ++ [Retrieved o] -> t = Main) /\
    ((forall o, ~ In (Completed o) (log c)) ->
     forall k h, main_thread c = Some (Get k h) -> exec Main c = None) /\
    (~ halted c -> exists t c', exec t c = Some c').
Proof.
  intros task arg sched c Ht Hr.
  pose proof (main_with_reachable _ _ _ _ Ht Hr) as Hinv.
  split; [|split; [|split; [|split; [|split]]]].
  - apply (invariant_sync_prefix _ _ _ Hinv).
  - intros Hh.
    destruct (invariant_halted _ _ _ Hinv Hh) as (Hm & _ & [Hf|Hf] & _).
    + exfalso.
      assert (Hin : In Launched (sync (log c))).
      { apply sync_In. split; [|reflexivity].
        apply (by_thread_In Main). rewrite Hm. find_in_log. }
      destruct Hinv as [_ _ Hs _]. rewrite Hs, Hf in Hin. exact Hin.
    + destruct Hinv as [_ _ Hs _]. rewrite Hs, Hf. reflexivity.
  - intros t c' o He Hl.
    destruct (exec_log _ _ _ He) as (e & Hl' & Et).
    rewrite Hl' in Hl. apply app_inv_head in Hl. inversion Hl; subst.
    reflexivity.
  - intros t c' o He Hl.
    destruct (exec_log _ _ _ He) as (e & Hl' & Et).
    rewrite Hl' in Hl. apply app_inv_head in Hl. inversion Hl; subst.
    reflexivity.
  - intros Hnone k h Hm. unfold exec, exec_main. rewrite Hm.
    destruct Hinv as [_ _ Hs _].
    destruct (fut c) as [| |o|]; try reflexivity; exfalso.
    apply (Hnone o). apply (sync_In (Completed o)). rewrite Hs.
    simpl. auto.
  - apply (main_with_completes _ _ _ _ Ht Hr).
Qed.

Lemma C6_witness_expected_run :
  sync expected_log = [Launched; Completed (Val 25); Retrieved (Val 25)].
Proof.
  apply (C6_one_shot_slot calculate_square_async 5 expected_schedule
           expected_final).
  - vm_compute. reflexivity.
  - vm_compute. reflexivity.
  - vm_compute. reflexivity.
Defined.

(** C7.  Whatever the argument [n] and wherever an execution stands, one
    action of the worker running [calculate_square_async(n)] leaves main
    and what has been written to [cerr] as they were, and adds to the log
    one entry of the worker's script: four insertions on [cout] for the
    first line, the sleep, five insertions on [cout] for the second line,
    and the return of the value.  What the worker has done so far is always
    an initial part of that script, in its order.  The future changes only
    with the last entry, which stores the value. *)
Theorem C7_worker_only_narrates :
  forall n sched c c',
    run sched (init (main_with calculate_square_async n)) = Some c ->
    exec Worker c = Some c' ->
    main_thread c' = main_thread c /\
    console Cerr (log c') = console Cerr (log c) /\
    (exists rest,
        by_thread Worker (log c') ++ rest
        = worker_script n (int_mul n n)) /\
    exists e,
      log c' = log c ++ [e] /\
      In e (says Worker Cout
              ["Worker thread: Starting calculation for "; show n; "..."; endl]
            ++ [Slept Worker 2]
            ++ says Worker Cout
              ["Worker thread: Calculation for "; show n;
               " finished. Result: "; show (int_mul n n); endl]
            ++ [Completed (Val (int_mul n n))]) /\
      (fut c' = fut c \/
       (e = Completed (Val (int_mul n n)) /\
        fut c' = Ready (Val (int_mul n n)))).
Proof.
  intros n sched c c' Hr He.
  pose proof (square_reachable n _ _ (run_snoc _ _ _ _ _ Hr He)) as Hinv'.
  destruct (exec_worker_frame _ _ He) as (Hm & e & Hl & Et & Hf).
  assert (Hin : In e (worker_script n (int_mul n n))).
  { assert (H : In e (log c'))
      by (rewrite Hl; apply in_or_app; right; left; reflexivity).
    destruct (invariant_event_in_script _ _ _ _ Hinv' H) as [[H1 _]|[_ H1]].
    - congruence.
    - exact H1. }
  split; [exact Hm|]. split; [|split].
  - rewrite Hl, console_app.
    simpl in Hin.
    destruct Hin as [<-|[<-|[<-|[<-|[<-|[<-|[<-|[<-|[<-|[<-|[<-|[]]]]]]]]]]]];
      simpl; apply string_app_nil_r.
  - destruct Hinv' as [_ Hw _ _]. exists (rest_worker c').
    rewrite Hw, worker_events. destruct (fut c') eqn:Ef; try reflexivity.
    exfalso. rewrite Hl, by_thread_app in Hw.
    destruct (by_thread Worker (log c)); simpl in Hw;
      rewrite Et in Hw; simpl in Hw; discriminate Hw.
  - exists e. split; [exact Hl|]. split; [exact Hin|].
    destruct Hf as [Hf|(o & -> & Hf)]; [left; exact Hf|].
    right. simpl in Hin.
    destruct Hin as [H|[H|[H|[H|[H|[H|[H|[H|[H|[H|[H|[]]]]]]]]]]]];
      try discriminate H.
    inversion H; subst. auto.
Qed.

(** The worker's first action, right after the launch. *)
Lemma C7_witness_first_insertion :
  main_thread (run_to (repeat_thread 3 Main ++ [Worker]) main)
  = main_thread (run_to (repeat_thread 3 Main) main).
Proof.
  apply (C7_worker_only_narrates 5 (repeat_thread 3 Main)
           (run_to (repeat_thread 3 Main) main)
           (run_to (repeat_thread 3 Main ++ [Worker]) main)).
  - vm_compute. reflexivity.
  - vm_compute. reflexivity.
Defined.

(** C8.  In every execution of the program as written: retrieval never
    rethrows, nothing is ever written to [cerr], and no exception leaves
    main, so the catch branch is never entered; the execution can always
    go on until main ends, which takes at most 28 actions in all; and when
    main has ended, the last things in the log are the line
    "Main thread: Program finished." and the return of 0. *)
Theorem C8_base_scenario_completes :
  forall sched c,
    run sched (init main) = Some c ->
    (forall e, ~ In (Retrieved (Exn e)) (log c)) /\
    (forall t text, ~ In (Write t Cerr text) (log c)) /\
    ~ In Terminated (log c) /\
    (~ halted c -> exists t c', exec t c = Some c') /\
    (List.length sched <= 28)%nat /\
    (halted c ->
     exists l,
       log c
       = l ++ says Main Cout ["Main thread: Program finished."; endl]
           ++ [Exited 0]).
Proof.
  intros sched c Hr.
  pose proof (square_reachable 5 sched c Hr) as Hinv.
  split; [|split; [|split; [|split; [|split]]]].
  - intros e Hin.
    destruct (invariant_retrieved _ _ _ _ Hinv Hin) as [H _].
    discriminate H.
  - intros t text Hin.
    destruct (invariant_event_in_script _ _ _ _ Hinv Hin) as [[_ H]|[_ H]];
      simpl in H; intuition discriminate.
  - intros Hin.
    destruct (invariant_event_in_script _ _ _ _ Hinv Hin) as [[_ H]|[H _]];
      [|discriminate].
    simpl in H. intuition discriminate.
  - apply (square_completes 5 sched c Hr).
  - apply (square_completes 5 sched c Hr).
  - intros Hh.
    destruct (invariant_halted_tail _ _ (worker_is_task 5) c main_before_get
                (main_after_value 25) Hinv Hh) as (l & Hl & _).
    + reflexivity.
    + simpl. intuition discriminate.
    + exists (l ++ Retrieved (Val 25)
                :: says Main Cout
                     ["Main thread: Asynchronous calculation result: ";
                      show 25; endl]).
      rewrite Hl. rewrite <- app_assoc. reflexivity.
Qed.

Lemma C8_witness_expected_run :
  exists l,
    expected_log
    = l ++ says Main Cout ["Main thread: Program finished."; endl]
        ++ [Exited 0].
Proof.
  apply (C8_base_scenario_completes expected_schedule expected_final).
  - vm_compute. reflexivity.
  - vm_compute. reflexivity.
Defined.

(** C9.  For every [int] [n], negative ones included, the worker ends by
    returning a value [r], never by an exception; [r] is the one value in
    the range of [int] that differs from [n * n] by a multiple of [2^32],
    and so it is [n * n] itself whenever that fits. *)
Theorem C9_square_wraps_in_int :
  forall n,
    in_int_range n ->
    exists r,
      task_outcome (calculate_square_async n) = Val r /\
      in_int_range r /\
      (r - n * n) mod 2 ^ 32 = 0 /\
      (forall r', in_int_range r' -> (r' - n * n) mod 2 ^ 32 = 0 -> r' = r) /\
      (in_int_range (n * n) -> r = n * n).
Proof.
  intros n _. exists (int_mul n n).
  split; [apply worker_outcome|].
  split; [apply wrap_in_range|].
  split; [apply wrap_congruent|].
  split; [|apply wrap_exact].
  intros r' Hr' Hm.
  apply (wrap_unique (int_mul n n) r' (n * n)).
  - apply wrap_in_range.
  - exact Hr'.
  - apply wrap_congruent.
  - exact Hm.
Qed.

(** At [-46341] the square does not fit: the worker returns
    [-2147479015], not [2147488281] and not the largest [int]. *)
Lemma C9_witness_negative_overflow :
  exists r,
    task_outcome (calculate_square_async (-46341)) = Val r /\
    in_int_range r /\
    (r - -46341 * -46341) mod 2 ^ 32 = 0 /\
    (forall r',
        in_int_range r' -> (r' - -46341 * -46341) mod 2 ^ 32 = 0 -> r' = r) /\
    (in_int_range (-46341 * -46341) -> r = -46341 * -46341).
Proof.
  apply (C9_square_wraps_in_int (-46341)).
  int_consts. lia.
Defined.

(** * Further properties of the program *)

Lemma console_silent s l :
  (forall t text, ~ In (Write t s text) l) -> console s l = "".
Proof.
  induction l as [|e l IH]; intros H; simpl; [reflexivity|].
  assert (Hl : forall t text, ~ In (Write t s text) l)
    by (intros t text Hin; apply (H t text); right; exact Hin).
  destruct e as [t s' text| | | | | |]; try (apply IH; exact Hl).
  destruct s', s; simpl; try (apply IH; exact Hl);
    exfalso; apply (H t text); left; reflexivity.
Qed.

(** When main has ended, the handle has been launched and consumed. *)
Lemma main_with_halted_consumed task arg sched c :
  is_task (task arg) = true ->
  run sched (init (main_with task arg)) = Some c ->
  halted c -> fut c = Consumed.
Proof.
  intros Ht Hr Hh.
  pose proof (main_with_reachable _ _ _ _ Ht Hr) as Hinv.
  destruct (invariant_halted _ _ _ Hinv Hh) as (Hm & _ & [Hf|Hf] & _);
    [|exact Hf].
  exfalso.
  assert (Hin : In Launched (sync (log c))).
  { apply sync_In. split; [|reflexivity].
    apply (by_thread_In Main). rewrite Hm. find_in_log. }
  destruct Hinv as [_ _ Hs _]. rewrite Hs, Hf in Hin. exact Hin.
Qed.

(** What the two threads have done when main has ended. *)
Lemma main_with_halted_scripts task arg sched c :
  is_task (task arg) = true ->
  run sched (init (main_with task arg)) = Some c ->
  halted c ->
  by_thread Main (log c)
  = main_events (task_outcome (task arg)) (main_with task arg) /\
  by_thread Worker (log c) = task_events (task arg) /\
  worker_thread c = None.
Proof.
  intros Ht Hr Hh.
  pose proof (main_with_reachable _ _ _ _ Ht Hr) as Hinv.
  pose proof (main_with_halted_consumed _ _ _ _ Ht Hr Hh) as Hf.
  destruct (invariant_halted _ _ _ Hinv Hh) as (Hm & Hw & _ & _).
  rewrite Hf in Hw. split; [exact Hm|]. split; [exact Hw|].
  destruct Hinv as [_ _ _ Hp]. rewrite Hf in Hp. apply Hp.
Qed.

(** X1.  The handler of main catches [std::exception] only.  If the
    launched task ends by throwing anything else, then in every execution
    main never returns, never prints "Program finished." and never writes
    the diagnostic; the execution can go on until main ends, and it ends
    with the retrieval rethrowing and the process terminating. *)
Theorem X1_foreign_exception_escapes :
  forall task arg sched c,
    is_task (task arg) = true ->
    task_outcome (task arg) = Exn other_exception ->
    run sched (init (main_with task arg)) = Some c ->
    (forall code, ~ In (Exited code) (log c)) /\
    ~ In (Write Main Cout "Main thread: Program finished.") (log c) /\
    (forall text, ~ In (Write Main Cerr text) (log c)) /\
    (~ halted c -> exists t c', exec t c = Some c') /\
    (halted c ->
     exists l, log c = l ++ [Retrieved (Exn other_exception); Terminated]).
Proof.
  intros task arg sched c Ht Ho Hr.
  pose proof (main_with_reachable _ _ _ _ Ht Hr) as Hinv.
  assert (Hscript : main_events (task_outcome (task arg)) (main_with task arg)
                    = main_before_get
                      ++ Retrieved (Exn other_exception) :: [Terminated])
    by (rewrite Ho; reflexivity).
  split; [|split; [|split; [|split]]].
  - intros code Hin.
    destruct (invariant_event_in_script _ _ _ _ Hinv Hin) as [[_ H]|[H _]];
      [|discriminate].
    rewrite Hscript in H. simpl in H. intuition discriminate.
  - intros Hin.
    destruct (invariant_event_in_script _ _ _ _ Hinv Hin) as [[_ H]|[H _]];
      [|discriminate].
    rewrite Hscript in H. simpl in H. intuition discriminate.
  - intros text Hin.
    destruct (invariant_event_in_script _ _ _ _ Hinv Hin) as [[_ H]|[H _]];
      [|discriminate].
    rewrite Hscript in H. simpl in H. intuition discriminate.
  - apply (main_with_completes _ _ _ _ Ht Hr).
  - intros Hh.
    destruct (invariant_halted_tail _ _ Ht c main_before_get [Terminated]
                Hinv Hh) as (l & Hl & _).
    + rewrite Ho. reflexivity.
    + simpl. intuition discriminate.
    + rewrite Ho in Hl. exists l. exact Hl.
Qed.

Lemma X1_witness_foreign_fault :
  exists l,
    log (run_to foreign_fault_schedule
           (main_with calculate_square_foreign_fault 5))
    = l ++ [Retrieved (Exn other_exception); Terminated].
Proof.
  apply (X1_foreign_exception_escapes calculate_square_foreign_fault 5
           foreign_fault_schedule
           (run_to foreign_fault_schedule
              (main_with calculate_square_foreign_fault 5))).
  - vm_compute. reflexivity.
  - vm_compute. reflexivity.
  - vm_compute. reflexivity.
  - vm_compute. reflexivity.
Defined.

(** X2.  For every argument [n], an execution in which main has ended has
    exactly 28 actions: main's 17, with the result line showing the [int]
    product of [n] by itself, and the worker's 11, whose second line shows
    the same number.  The worker has ended, the handle is consumed, and
    nothing went to [cerr]. *)
Theorem X2_complete_run_for_any_argument :
  forall n sched c,
    run sched (init (main_with calculate_square_async n)) = Some c ->
    halted c ->
    by_thread Main (log c) = main_script_value (int_mul n n) /\
    by_thread Worker (log c) = worker_script n (int_mul n n) /\
    List.length sched = 28%nat /\
    worker_thread c = None /\
    fut c = Consumed /\
    console Cerr (log c) = "".
Proof.
  intros n sched c Hr Hh.
  pose proof (square_reachable _ _ _ Hr) as Hinv.
  destruct (main_with_halted_scripts calculate_square_async n sched c
              (worker_is_task n) Hr Hh) as (Hm & Hw & Hwn).
  rewrite worker_outcome, main_events_value in Hm.
  rewrite worker_events in Hw.
  split; [exact Hm|]. split; [exact Hw|]. split; [|split; [exact Hwn|split]].
  - pose proof (run_log_length _ _ _ Hr) as Hlen. simpl in Hlen.
    rewrite <- Hlen, (log_split (log c)), Hm, Hw. reflexivity.
  - apply (main_with_halted_consumed calculate_square_async n sched c
             (worker_is_task n) Hr Hh).
  - apply console_silent. intros t text Hin.
    destruct (invariant_event_in_script _ _ _ _ Hinv Hin) as [[_ H]|[_ H]];
      simpl in H; intuition discriminate.
Qed.

Lemma X2_witness_negative_argument :
  by_thread Main
    (log (run_to eager_schedule (main_with calculate_square_async (-7))))
  = main_script_value 49.
Proof.
  apply (X2_complete_run_for_any_argument (-7) eager_schedule
           (run_to eager_schedule (main_with calculate_square_async (-7)))).
  - vm_compute. reflexivity.
  - vm_compute. reflexivity.
Defined.

(** X3.  Whatever task is launched, two executions in which main has ended
    differ only in how the two threads are interleaved: what main did, what
    the worker did, and the number of actions are the same. *)
Theorem X3_schedule_independence :
  forall task arg sched1 sched2 c1 c2,
    is_task (task arg) = true ->
    run sched1 (init (main_with task arg)) = Some c1 ->
    run sched2 (init (main_with task arg)) = Some c2 ->
    halted c1 -> halted c2 ->
    by_thread Main (log c1) = by_thread Main (log c2) /\
    by_thread Worker (log c1) = by_thread Worker (log c2) /\
    List.length sched1 = List.length sched2.
Proof.
  intros task arg sched1 sched2 c1 c2 Ht H1 H2 Hh1 Hh2.
  destruct (main_with_halted_scripts _ _ _ _ Ht H1 Hh1) as (Hm1 & Hw1 & _).
  destruct (main_with_halted_scripts _ _ _ _ Ht H2 Hh2) as (Hm2 & Hw2 & _).
  split; [congruence|]. split; [congruence|].
  pose proof (run_log_length _ _ _ H1) as L1.
  pose proof (run_log_length _ _ _ H2) as L2. simpl in L1, L2.
  rewrite <- L1, <- L2, (log_split (log c1)), (log_split (log c2)).
  rewrite Hm1, Hm2, Hw1, Hw2. reflexivity.
Qed.

Lemma X3_witness_two_schedules :
  by_thread Main expected_log = by_thread Main eager_log.
Proof.
  apply (X3_schedule_independence calculate_square_async 5
           expected_schedule eager_schedule expected_final eager_final).
  - vm_compute. reflexivity.
  - vm_compute. reflexivity.
  - vm_compute. reflexivity.
  - vm_compute. reflexivity.
  - vm_compute. reflexivity.
Defined.

(** A task on the worker thread runs to its end without any help. *)
Lemma task_runs w :
  is_task w = true ->
  forall c,
    worker_thread c = Some w ->
    exists c',
      run (repeat_thread (List.length (task_events w)) Worker) c = Some c' /\
      fut c' = Ready (task_outcome w) /\
      main_thread c' = main_thread c /\
      worker_thread c' = None.
Proof.
  unfold repeat_thread.
  induction w as [v|e|s text k IH|secs k IH|w1 _ k _|k _ h _];
    simpl; intros Ht c Hw; try discriminate.
  - unfold exec_worker. rewrite Hw. eexists. split; [reflexivity|].
    simpl. auto.
  - unfold exec_worker. rewrite Hw. eexists. split; [reflexivity|].
    simpl. auto.
  - unfold exec_worker. rewrite Hw.
    destruct (IH Ht {| main_thread := main_thread c; worker_thread := Some k;
                       fut := fut c;
                       log := log c ++ [Write Worker s text] |} eq_refl)
      as (c' & Hr & Hf & Hm & Hn).
    exists c'. auto.
  - unfold exec_worker. rewrite Hw.
    destruct (IH Ht {| main_thread := main_thread c; worker_thread := Some k;
                       fut := fut c;
                       log := log c ++ [Slept Worker secs] |} eq_refl)
      as (c' & Hr & Hf & Hm & Hn).
    exists c'. auto.
Qed.

(** X4.  Retrieval cannot wait for ever.  Whatever task is launched and
    wherever an execution stands while the future is pending, the worker
    alone, in no more actions than its script has, makes the future ready
    with the task's outcome, without touching main; and if main was
    standing at [get], it then has an action. *)
Theorem X4_worker_completes_alone :
  forall task arg sched c,
    is_task (task arg) = true ->
    run sched (init (main_with task arg)) = Some c ->
    fut c = Pending ->
    exists k c',
      (k <= List.length (task_events (task arg)))%nat /\
      run (repeat_thread k Worker) c = Some c' /\
      fut c' = Ready (task_outcome (task arg)) /\
      main_thread c' = main_thread c /\
      (forall k0 h, main_thread c = Some (Get k0 h) ->
                    exists c'', exec Main c' = Some c'').
Proof.
  intros task arg sched c Ht Hr Hf.
  pose proof (main_with_reachable _ _ _ _ Ht Hr) as Hinv.
  destruct Hinv as [_ Hw _ Hp]. rewrite Hf in Hw, Hp.
  destruct Hp as [(w & Hq & Hwt & Ho) _].
  destruct (task_runs w Hwt c Hq) as (c' & Hrun & Hf' & Hm' & _).
  exists (List.length (task_events w)), c'.
  split; [|split; [exact Hrun|split; [|split; [exact Hm'|]]]].
  - unfold rest_worker in Hw. rewrite Hq in Hw.
    rewrite <- Hw, length_app. lia.
  - rewrite Hf', Ho. reflexivity.
  - intros k0 h Hm. simpl. unfold exec_main. rewrite Hm', Hm, Hf'.
    destruct (task_outcome w); eauto.
Qed.

Lemma X4_witness_after_launch :
  exists k c',
    (k <= List.length (task_events (calculate_square_async 5%Z)))%nat /\
    run (repeat_thread k Worker) (run_to (repeat_thread 10 Main) main)
    = Some c' /\
    fut c' = Ready (task_outcome (calculate_square_async 5)) /\
    main_thread c' = main_thread (run_to (repeat_thread 10 Main) main) /\
    (forall k0 h,
        main_thread (run_to (repeat_thread 10 Main) main) = Some (Get k0 h) ->
        exists c'', exec Main c' = Some c'').
Proof.
  apply (X4_worker_completes_alone calculate_square_async 5
           (repeat_thread 10 Main) (run_to (repeat_thread 10 Main) main)).
  - vm_compute. reflexivity.
  - vm_compute. reflexivity.
  - vm_compute. reflexivity.
Defined.

(** ** Prefixes of executions *)

Lemma run_unsnoc sched t c c' :
  run (sched ++ [t]) c = Some c' ->
  exists c1, run sched c = Some c1 /\ exec t c1 = Some c'.
Proof.
  rewrite run_app. destruct (run sched c) as [c1|]; [|discriminate].
  simpl. destruct (exec t c1) as [c2|] eqn:E; [|discriminate].
  intros H. inversion H; subst. exists c1. auto.
Qed.

(** Every initial part of the log of an execution is the log of an
    execution. *)
Lemma log_prefix_reachable p sched :
  forall c l1 l2,
    run sched (init p) = Some c -> log c = l1 ++ l2 ->
    exists sched1 c1, run sched1 (init p) = Some c1 /\ log c1 = l1.
Proof.
  induction sched as [|t sched IH] using rev_ind; intros c l1 l2 Hr Hl.
  - simpl in Hr. inversion Hr; subst. simpl in Hl.
    symmetry in Hl. apply app_eq_nil in Hl. destruct Hl as [-> _].
    exists [], (init p). auto.
  - destruct (run_unsnoc _ _ _ _ Hr) as (c1 & Hr1 & He).
    destruct (exec_log _ _ _ He) as (e & Hle & _).
    destruct l2 as [|x l2] using rev_ind.
    + rewrite app_nil_r in Hl. exists (sched ++ [t]), c. auto.
    + clear IHl2. rewrite Hle, app_assoc in Hl.
      apply app_inj_tail in Hl. destruct Hl as [Hl _].
      apply (IH c1 l1 l2 Hr1 Hl).
Qed.

(** A number never prints as the beginning of a narration line. *)
Lemma show_not_narration v rest : show v <> String "M" rest.
Proof.
  unfold show. destruct (Z.to_int v) as [u|u]; simpl.
  - destruct u; simpl; discriminate.
  - discriminate.
Qed.

(** X5.  Nothing the worker does can come first: whatever task is
    launched, each action of the worker in a log has the launch, and main's
    first line, before it. *)
Theorem X5_worker_acts_after_launch :
  forall task arg sched c l1 e l2,
    is_task (task arg) = true ->
    run sched (init (main_with task arg)) = Some c ->
    log c = l1 ++ e :: l2 ->
    event_thread e = Worker ->
    In Launched l1 /\
    In (Write Main Cout "Main thread: Starting the program.") l1.
Proof.
  intros task arg sched c l1 e l2 Ht Hr Hl He.
  assert (HL : In Launched l1).
  { destruct (log_prefix_reachable _ sched c (l1 ++ [e]) l2 Hr)
      as (s1 & c1 & Hr1 & Hl1).
    { rewrite Hl, <- app_assoc. reflexivity. }
    pose proof (main_with_reachable _ _ _ _ Ht Hr1) as Hinv.
    destruct Hinv as [_ Hw Hs _].
    rewrite Hl1, by_thread_app in Hw. simpl in Hw. rewrite He in Hw.
    simpl in Hw. rewrite Hl1 in Hs.
    assert (Hin : In Launched (sync (l1 ++ [e]))).
    { rewrite Hs. destruct (fut c1); simpl; auto.
      destruct (by_thread Worker l1); discriminate Hw. }
    apply sync_In in Hin. destruct Hin as [Hin _].
    apply in_app_or in Hin. destruct Hin as [Hin|[Hin|[]]]; [exact Hin|].
    subst e. discriminate He. }
  split; [exact HL|].
  apply in_split in HL. destruct HL as (a & b & Hab).
  destruct (log_prefix_reachable _ sched c (a ++ [Launched]) (b ++ e :: l2) Hr)
    as (s0 & c0 & Hr0 & Hl0).
  { rewrite Hl, Hab, <- !app_assoc. reflexivity. }
  pose proof (main_with_reachable _ _ _ _ Ht Hr0) as Hinv0.
  destruct Hinv0 as [Hm _ _ _].
  rewrite Hl0, by_thread_app, <- app_assoc in Hm.
  change (by_thread Main [Launched] ++ ?r) with (Launched :: r) in Hm.
  symmetry in Hm.
  destruct (occurs_once Launched
              (says Main Cout ["Main thread: Starting the program."; endl])
              (skipn 3 (main_events (task_outcome (task arg))
                          (main_with task arg)))
              (by_thread Main a)
              (rest_main (task_outcome (task arg)) c0)
              Hm) as [E _].
  { simpl. intuition discriminate. }
  { destruct (task_outcome (task arg)) as [v|[what|]]; simpl;
      intuition discriminate. }
  rewrite Hab. apply in_or_app. left.
  apply (by_thread_In Main). rewrite <- E. left. reflexivity.
Qed.

Lemma X5_witness_expected_run :
  In Launched
     (says Main Cout ["Main thread: Starting the program."; endl]
      ++ [Launched]
      ++ says Main Cout
        ["Main thread: Doing other work while the calculation is in progress...";
         endl]) /\
  In (Write Main Cout "Main thread: Starting the program.")
     (says Main Cout ["Main thread: Starting the program."; endl]
      ++ [Launched]
      ++ says Main Cout
        ["Main thread: Doing other work while the calculation is in progress...";
         endl]).
Proof.
  apply (X5_worker_acts_after_launch calculate_square_async 5
           expected_schedule expected_final
           (says Main Cout ["Main thread: Starting the program."; endl]
            ++ [Launched]
            ++ says Main Cout
              ["Main thread: Doing other work while the calculation is in progress...";
               endl])
           (Write Worker Cout "Worker thread: Starting calculation for ")
           (skipn 6 expected_log)).
  - vm_compute. reflexivity.
  - vm_compute. reflexivity.
  - vm_compute. reflexivity.
  - vm_compute. reflexivity.
Defined.

(** X6.  Main's result line never overtakes the worker.  Whatever task is
    launched, if it returns [v], then where the result line begins in a
    log, the retrieval of [v] and everything the worker does, its last
    line included, are before it. *)
Theorem X6_result_line_after_worker_output :
  forall task arg v sched c l1 l2,
    is_task (task arg) = true ->
    task_outcome (task arg) = Val v ->
    run sched (init (main_with task arg)) = Some c ->
    log c
    = l1 ++ Write Main Cout "Main thread: Asynchronous calculation result: "
         :: l2 ->
    by_thread Worker l1 = task_events (task arg) /\
    In (Retrieved (Val v)) l1.
Proof.
  intros task arg v sched c l1 l2 Ht Ho Hr Hl.
  destruct (log_prefix_reachable _ sched c
              (l1 ++ [Write Main Cout
                        "Main thread: Asynchronous calculation result: "])
              l2 Hr) as (s1 & c1 & Hr1 & Hl1).
  { rewrite Hl, <- app_assoc. reflexivity. }
  pose proof (main_with_reachable _ _ _ _ Ht Hr1) as Hinv.
  assert (E : main_before_get ++ [Retrieved (Val v)] = by_thread Main l1).
  { destruct Hinv as [Hm _ _ _].
    rewrite Hl1, by_thread_app, <- app_assoc, Ho in Hm.
    change (by_thread Main [?x] ++ ?r) with (x :: r) in Hm.
    symmetry in Hm.
    destruct (occurs_once
                (Write Main Cout
                   "Main thread: Asynchronous calculation result: ")
                (main_before_get ++ [Retrieved (Val v)])
                (says Main Cout [show v; endl] ++ main_suffix)
                (by_thread Main l1)
                (rest_main (Val v) c1)
                Hm) as [E _].
    - simpl. intuition discriminate.
    - simpl. intros [H|[H|[H|[H|[H|[]]]]]]; try discriminate H.
      inversion H as [H1]. exact (show_not_narration v _ H1).
    - exact E. }
  assert (Hret : In (Retrieved (Val v)) l1).
  { apply (by_thread_In Main). rewrite <- E. apply in_or_app. right.
    left. reflexivity. }
  split; [|exact Hret].
  assert (Hin : In (Retrieved (Val v)) (log c1))
    by (rewrite Hl1; apply in_or_app; left; exact Hret).
  destruct (invariant_retrieved _ _ _ _ Hinv Hin) as [_ Hf].
  destruct Hinv as [_ Hw _ Hp]. rewrite Hf in Hw, Hp.
  destruct Hp as [Hwn _]. unfold rest_worker in Hw.
  rewrite Hwn, app_nil_r, Hl1, by_thread_app in Hw. simpl in Hw.
  rewrite app_nil_r in Hw. exact Hw.
Qed.

Lemma X6_witness_expected_run :
  by_thread Worker (expected_before_get ++ [Retrieved (Val 25)])
  = task_events (calculate_square_async 5) /\
  In (Retrieved (Val 25)) (expected_before_get ++ [Retrieved (Val 25)]).
Proof.
  apply (X6_result_line_after_worker_output calculate_square_async 5 25
           expected_schedule expected_final
           (expected_before_get ++ [Retrieved (Val 25)])
           (skipn 23 expected_log)).
  - vm_compute. reflexivity.
  - vm_compute. reflexivity.
  - vm_compute. reflexivity.
  - vm_compute. reflexivity.
Defined.

(** ** Which schedules are executions *)

Lemma main_events_nonempty o p : main_events o p <> [].
Proof. destruct p; discriminate. Qed.

Lemma task_events_nonempty w : is_task w = true -> task_events w <> [].
Proof. destruct w; simpl; intros H; discriminate. Qed.

Lemma skipn_length_app (A : Type) (l r : list A) :
  skipn (List.length l) (l ++ r) = r.
Proof. induction l as [|x l IH]; simpl; auto. Qed.

Lemma firstn_length_app (A : Type) (l r : list A) :
  firstn (List.length l) (l ++ r) = l.
Proof. induction l as [|x l IH]; simpl; [reflexivity | now rewrite IH]. Qed.

Lemma exec_counts t c c' :
  exec t c = Some c' ->
  main_count c'
  = (main_count c + match t with Main => 1 | Worker => 0 end)%nat /\
  worker_count c'
  = (worker_count c + match t with Main => 0 | Worker => 1 end)%nat.
Proof.
  intros H. destruct (exec_log _ _ _ H) as (e & Hl & Et).
  unfold main_count, worker_count.
  rewrite Hl, !by_thread_app, !length_app. simpl. rewrite Et.
  destruct t; simpl; lia.
Qed.

Section Schedules.

Variable n : Z.

Lemma square_main_rest c :
  invariant (calculate_square_async n) (main_with calculate_square_async n) c ->
  by_thread Main (log c) = firstn (main_count c) (main_script_value (int_mul n n)) /\
  rest_main (Val (int_mul n n)) c
  = skipn (main_count c) (main_script_value (int_mul n n)) /\
  (main_count c + List.length (rest_main (Val (int_mul n n)) c) = 17)%nat.
Proof.
  intros [Hm _ _ _]. rewrite worker_outcome, main_events_value in Hm.
  unfold main_count. rewrite <- Hm.
  rewrite firstn_length_app, skipn_length_app.
  split; [reflexivity|]. split; [reflexivity|].
  rewrite <- length_app, Hm. reflexivity.
Qed.

Lemma square_worker_rest c :
  invariant (calculate_square_async n) (main_with calculate_square_async n) c ->
  (worker_count c + List.length (rest_worker c)
   = match fut c with NoFuture => 0 | _ => 11 end)%nat.
Proof.
  intros [_ Hw _ _]. unfold worker_count.
  rewrite <- length_app, Hw. destruct (fut c); reflexivity.
Qed.

(** Main has ended exactly when it has done its 17 actions. *)
Lemma square_halted_count c :
  invariant (calculate_square_async n) (main_with calculate_square_async n) c ->
  (halted c <-> main_count c = 17%nat).
Proof.
  intros Hinv. destruct (square_main_rest c Hinv) as (_ & _ & Hlen).
  unfold halted, rest_main in *.
  destruct (main_thread c) as [p|]; simpl in Hlen.
  - pose proof (main_events_nonempty (Val (int_mul n n)) p) as Hne.
    destruct (main_events (Val (int_mul n n)) p); [congruence|].
    simpl in Hlen. split; [discriminate | lia].
  - split; [lia | reflexivity].
Qed.

(** Main stands at [get] exactly when it has done 10 actions. *)
Lemma square_at_get c k h :
  invariant (calculate_square_async n) (main_with calculate_square_async n) c ->
  main_thread c = Some (Get k h) -> main_count c = 10%nat.
Proof.
  intros [Hm _ _ _] Hp. unfold rest_main in Hm.
  rewrite Hp, worker_outcome, main_events_value in Hm. simpl in Hm.
  symmetry in Hm.
  destruct (occurs_once (Retrieved (Val (int_mul n n)))
              main_before_get (main_after_value (int_mul n n))
              (by_thread Main (log c)) _ Hm) as [E _].
  - simpl. intuition discriminate.
  - simpl. intuition discriminate.
  - unfold main_count. rewrite <- E. reflexivity.
Qed.

Lemma square_launched c :
  invariant (calculate_square_async n) (main_with calculate_square_async n) c ->
  (fut c <> NoFuture <-> (3 <= main_count c)%nat).
Proof.
  intros Hinv. destruct (square_main_rest c Hinv) as (Hfirst & _ & _).
  destruct Hinv as [_ _ Hs _].
  assert (Hiff : In Launched (log c) <-> fut c <> NoFuture).
  { split.
    - intros Hin Hf.
      assert (H : In Launched (sync (log c)))
        by (apply sync_In; split; [exact Hin | reflexivity]).
      rewrite Hs, Hf in H. exact H.
    - intros Hf. apply (sync_In Launched). rewrite Hs.
      destruct (fut c); [congruence | | |]; simpl; auto. }
  rewrite <- Hiff. split.
  - intros Hin.
    assert (H : In Launched (by_thread Main (log c)))
      by (apply by_thread_In; split; [exact Hin | reflexivity]).
    rewrite Hfirst in H.
    destruct (main_count c) as [|[|[|m]]]; simpl in H;
      [intuition discriminate.. | lia].
  - intros Hm. apply (by_thread_In Main Launched). rewrite Hfirst.
    destruct (main_count c) as [|[|[|m]]]; [lia.. |].
    simpl. auto.
Qed.

(** The worker has an action exactly between the launch and its own end. *)
Lemma square_worker_enabled c :
  invariant (calculate_square_async n) (main_with calculate_square_async n) c ->
  ((exists c', exec Worker c = Some c') <->
   (3 <= main_count c)%nat /\ (worker_count c < 11)%nat).
Proof.
  intros Hinv.
  pose proof (square_worker_rest c Hinv) as Hlen.
  pose proof (square_launched c Hinv) as Hlaunch.
  destruct Hinv as [_ _ _ Hp]. unfold rest_worker in Hlen. split.
  - intros [c' He]. simpl in He. unfold exec_worker in He.
    destruct (worker_thread c) as [w|] eqn:Ew; [|discriminate].
    destruct (fut c) as [| |o|] eqn:Ef.
    + destruct Hp as [Hp _]. discriminate Hp.
    + destruct Hp as [(w' & Hq & Ht & _) _]. inversion Hq; subst w'.
      pose proof (task_events_nonempty w Ht) as Hne.
      destruct (task_events w); [congruence|]. simpl in Hlen.
      split; [apply Hlaunch; discriminate | lia].
    + destruct Hp as (_ & Hp & _). discriminate Hp.
    + destruct Hp as [Hp _]. discriminate Hp.
  - intros [Hm Hw]. apply Hlaunch in Hm.
    destruct (fut c) as [| |o|] eqn:Ef.
    + congruence.
    + destruct Hp as [(w' & Hq & Ht & _) _].
      apply (task_enabled c w' Hq Ht).
    + destruct Hp as (_ & Hp & _). rewrite Hp in Hlen. simpl in Hlen. lia.
    + destruct Hp as [Hp _]. rewrite Hp in Hlen. simpl in Hlen. lia.
Qed.

(** Main has an action exactly when it has not ended and is not waiting at
    [get] for a worker that has actions left. *)
Lemma square_main_enabled c :
  invariant (calculate_square_async n) (main_with calculate_square_async n) c ->
  ((exists c', exec Main c = Some c') <->
   (main_count c < 17)%nat /\
   (main_count c <> 10%nat \/ worker_count c = 11%nat)).
Proof.
  intros Hinv.
  pose proof (square_worker_rest c Hinv) as Hwlen.
  destruct (square_main_rest c Hinv) as (_ & Hskip & Hlen).
  pose proof (fun k h => square_at_get c k h Hinv) as Hget.
  destruct Hinv as [_ _ _ Hp].
  unfold rest_main in Hlen, Hskip. unfold rest_worker in Hwlen. split.
  - intros [c' He]. simpl in He. unfold exec_main in He.
    destruct (main_thread c) as [p|] eqn:Em; [|discriminate].
    pose proof (main_events_nonempty (Val (int_mul n n)) p) as Hne.
    split.
    + destruct (main_events (Val (int_mul n n)) p); [congruence|].
      simpl in Hlen. lia.
    + destruct p as [v|e|s text k|secs k|w k|k h];
        try (left; intros H10; rewrite H10 in Hskip;
             unfold main_script_value, main_before_get in Hskip;
             simpl in Hskip; discriminate Hskip).
      right. destruct (fut c) as [| |o|] eqn:Ef; try discriminate.
      destruct Hp as (_ & Hwn & _). rewrite Hwn in Hwlen.
      simpl in Hwlen. lia.
  - intros [Hm Hcond].
    destruct (main_thread c) as [p|] eqn:Em; [|simpl in Hlen; lia].
    simpl. unfold exec_main. rewrite Em.
    destruct (fut c) as [| |o|] eqn:Ef.
    + destruct Hp as [_ Hp]. specialize (Hp _ eq_refl).
      destruct p; simpl in Hp; eauto. destruct Hp; discriminate.
    + destruct Hp as [(w & Hq & Ht & _) (q & Hq' & Hp)].
      inversion Hq'; subst q.
      destruct p as [v|e|s text k|secs k|w1 k|k h]; simpl in Hp; eauto;
        try congruence.
      * destruct Hp; discriminate.
      * exfalso. rewrite Hq in Hwlen.
        pose proof (task_events_nonempty w Ht) as Hne.
        destruct (task_events w); [congruence|]. simpl in Hwlen.
        pose proof (Hget k h eq_refl). lia.
    + destruct Hp as (_ & _ & q & Hq' & Hp). inversion Hq'; subst q.
      destruct p; simpl in Hp; eauto.
      * destruct Hp; discriminate.
      * destruct o; eauto.
    + destruct Hp as [_ Hp]. specialize (Hp _ eq_refl).
      destruct p; simpl in Hp; eauto; destruct Hp; discriminate.
Qed.

Lemma square_admissible sched :
  forall c,
    invariant (calculate_square_async n)
      (main_with calculate_square_async n) c ->
    (admissible (main_count c) (worker_count c) sched = true <->
     exists c', run sched c = Some c' /\ halted c').
Proof.
  induction sched as [|t rest IH]; intros c Hinv; cbn [admissible run].
  - rewrite Nat.eqb_eq, <- (square_halted_count c Hinv). split.
    + intros Hh. exists c. auto.
    + intros (c' & Hc & Hh). inversion Hc; subst. exact Hh.
  - destruct t.
    + rewrite !andb_true_iff, orb_true_iff, negb_true_iff, Nat.ltb_lt,
        Nat.eqb_neq, Nat.eqb_eq.
      pose proof (square_main_enabled c Hinv) as Hen. split.
      * intros [[Hm Hc] Hadm].
        destruct (proj2 Hen (conj Hm Hc)) as [c1 He].
        destruct (exec_counts _ _ _ He) as [Hmc Hwc].
        pose proof (invariant_exec _ _ (worker_is_task n) _ _ _ Hinv He)
          as Hinv1.
        rewrite Nat.add_1_r in Hmc. rewrite Nat.add_0_r in Hwc.
        rewrite <- Hmc, <- Hwc in Hadm.
        apply (IH c1 Hinv1) in Hadm. destruct Hadm as (c' & Hr & Hh).
        exists c'. rewrite He. auto.
      * intros (c' & Hr & Hh).
        destruct (exec Main c) as [c1|] eqn:He; [|discriminate].
        destruct (exec_counts Main _ _ He) as [Hmc Hwc].
        pose proof (invariant_exec _ _ (worker_is_task n) Main _ _ Hinv He)
          as Hinv1.
        rewrite Nat.add_1_r in Hmc. rewrite Nat.add_0_r in Hwc.
        split.
        -- apply Hen. exists c1. reflexivity.
        -- rewrite <- Hmc, <- Hwc. apply (IH c1 Hinv1). exists c'. auto.
    + rewrite !andb_true_iff, Nat.leb_le, Nat.ltb_lt.
      pose proof (square_worker_enabled c Hinv) as Hen. split.
      * intros [[Hm Hw] Hadm].
        destruct (proj2 Hen (conj Hm Hw)) as [c1 He].
        destruct (exec_counts _ _ _ He) as [Hmc Hwc].
        pose proof (invariant_exec _ _ (worker_is_task n) _ _ _ Hinv He)
          as Hinv1.
        rewrite Nat.add_0_r in Hmc. rewrite Nat.add_1_r in Hwc.
        rewrite <- Hmc, <- Hwc in Hadm.
        apply (IH c1 Hinv1) in Hadm. destruct Hadm as (c' & Hr & Hh).
        exists c'. rewrite He. auto.
      * intros (c' & Hr & Hh).
        destruct (exec Worker c) as [c1|] eqn:He; [|discriminate].
        destruct (exec_counts Worker _ _ He) as [Hmc Hwc].
        pose proof (invariant_exec _ _ (worker_is_task n) Worker _ _ Hinv He)
          as Hinv1.
        rewrite Nat.add_0_r in Hmc. rewrite Nat.add_1_r in Hwc.
        split.
        -- apply Hen. exists c1. reflexivity.
        -- rewrite <- Hmc, <- Hwc. apply (IH c1 Hinv1). exists c'. auto.
Qed.

End Schedules.

(** X7.  For every argument [n], the executions in which main runs to its
    end are exactly the schedules that [admissible] accepts: 17 actions of
    main and 11 of the worker, none of the worker's before main's third
    (the launch), all of them before main's eleventh (the retrieval). *)
Theorem X7_complete_schedules :
  forall n sched,
    admissible 0 0 sched = true <->
    exists c,
      run sched (init (main_with calculate_square_async n)) = Some c /\
      halted c.
Proof.
  intros n sched.
  apply (square_admissible n sched
           (init (main_with calculate_square_async n))).
  apply invariant_init. apply main_with_protocol.
Qed.

Example expected_schedule_admissible :
  admissible 0 0 expected_schedule = true.
Proof. reflexivity. Qed.

Example early_get_not_admissible :
  admissible 0 0
    (repeat_thread 11 Main ++ repeat_thread 11 Worker ++ repeat_thread 6 Main)
  = false.
Proof. reflexivity. Qed.

(** X8.  A narration line is several insertions, and the other thread may
    act between two of them: for every argument [n] there is an execution,
    run to the end of main, in which the worker's first line lands inside
    main's line, before its end of line, so the console shows neither line
    whole. *)
Theorem X8_lines_can_be_torn :
  forall n,
    run torn_schedule (init (main_with calculate_square_async n))
    = Some {| main_thread := None; worker_thread := None; fut := Consumed;
              log := torn_log n |} /\
    console Cout (torn_log n)
    = ("Main thread: Starting the program." ++ newline
       ++ "Main thread: Doing other work while the calculation is in progress..."
       ++ "Worker thread: Starting calculation for " ++ show n ++ "..."
       ++ newline ++ newline
       ++ "Worker thread: Calculation for " ++ show n
       ++ " finished. Result: " ++ show (int_mul n n) ++ newline
       ++ "Main thread: Finished doing other work." ++ newline
       ++ "Main thread: Waiting for the asynchronous calculation to finish and getting the result."
       ++ newline
       ++ "Main thread: Asynchronous calculation result: "
       ++ show (int_mul n n) ++ newline
       ++ "Main thread: Program finished." ++ newline)%string.
Proof.
  intros n. split.
  - reflexivity.
  - unfold torn_log, main_after_value, main_suffix, says.
    cbn [map app console stream_eqb].
    rewrite !string_app_nil_r. reflexivity.
Qed.

(** X9.  The worker returns the true square exactly for the arguments from
    [-46340] to [46340]: outside that interval, on either side, the product
    does not fit in an [int] and what is returned differs from [n * n]. *)
Theorem X9_square_exact_range :
  forall n,
    task_outcome (calculate_square_async n) = Val (n * n) <->
    -46340 <= n <= 46340.
Proof.
  intros n. rewrite worker_outcome. split.
  - intros H. inversion H as [H1].
    pose proof (wrap_in_range (n * n)) as Hr.
    unfold int_mul in H1. rewrite H1 in Hr. int_consts. nia.
  - intros H. f_equal. apply wrap_exact. int_consts. nia.
Qed.
